(** * picopb: a shallow embedding of the protobuf reader and writer

    This development models [src/src/lib.rs] of picopb.

    Conventions of the embedding:
    - a [u8], [u64] or [usize] value is a [Z] inside its range, an [i64] a [Z]
      in [[-2^63, 2^63)]; wrap-around is written out explicitly;
    - byte buffers are [list Z], one element per byte;
    - a method on [&mut self] is a function [S -> option (result A * S)]:
      [None] is a Rust panic, [Some (Err e, s')] an early [?] return that
      keeps every mutation done before it;
    - the Rust build profile matters for integer arithmetic: with
      [overflow_checks = true] (the debug profile) [+], [-] and unary [-] panic
      on overflow, with [overflow_checks = false] (release) they wrap. *)

From Stdlib Require Import ZArith Lia Bool List.
From stdpp Require Import base list.
Import ListNotations.
Open Scope Z_scope.

(** ** Wire format primitives *)

Inductive WireType := Varint | Bit64 | Bytes | Bit32.

(** [WireType as u8]: the [#[repr(u8)]] discriminants. *)
Definition wire_type_u8 (wt : WireType) : Z :=
  match wt with Varint => 0 | Bit64 => 1 | Bytes => 2 | Bit32 => 5 end.

(** [WireType::from_u8] *)
Definition wire_type_from_u8 (b : Z) : option WireType :=
  if b =? 0 then Some Varint
  else if b =? 1 then Some Bit64
  else if b =? 2 then Some Bytes
  else if b =? 5 then Some Bit32
  else None.

(** [enum Error] *)
Inductive Error :=
| Eof
| UnexpectedEof
| InvalidWireType (b : Z)
| InvalidFieldNumber (b : Z)
| VarintOverflow
| InvalidUtf8String
| BufferOverflow.

(** [Error::is_eof(&self)] *)
Definition Error_is_eof (e : Error) : bool :=
  match e with Eof => true | _ => false end.

(** [Result<T, Error>] *)
Inductive result (A : Type) := Ok (a : A) | Err (e : Error).
Arguments Ok {A} a.
Arguments Err {A} e.

(** A method on [&mut self]: [None] is a panic. *)
Definition M (S A : Type) := S -> option (result A * S).

Definition ret {S A} (a : A) : M S A := fun s => Some (Ok a, s).
Definition fail {S A} (e : Error) : M S A := fun s => Some (Err e, s).
Definition panic {S A} : M S A := fun _ => None.

(** The [?] operator. *)
Definition bind {S A B} (m : M S A) (k : A -> M S B) : M S B :=
  fun s =>
    match m s with
    | Some (Ok a, s') => k a s'
    | Some (Err e, s') => Some (Err e, s')
    | None => None
    end.

Notation "'let*' x ':=' m 'in' k" := (bind m (fun x => k))
  (at level 200, x name, m at level 100, k at level 200).

(** [opt.ok_or(e)?] on a method returning [Option]. *)
Definition ok_or {S A} (m : S -> option A * S) (e : Error) : M S A :=
  fun s => match m s with
           | (Some a, s') => Some (Ok a, s')
           | (None, s') => Some (Err e, s')
           end.

(** Unsigned values of width [w] wrapped to their range. *)
Definition wrap_u (w z : Z) : Z := z mod 2 ^ w.
(** Signed 64-bit two's complement wrap-around. *)
Definition wrap_i64 (z : Z) : Z := (z + 2 ^ 63) mod 2 ^ 64 - 2 ^ 63.

(** [x.checked_shl(s)] on a [w]-bit unsigned integer: [None] only when the
    shift amount is at least the bit width; the shifted-out bits are lost. *)
Definition checked_shl (w x s : Z) : option Z :=
  if s <? w then Some (wrap_u w (Z.shiftl x s)) else None.

Section Arith.
(** The build profile: [true] for the debug profile. *)
Variable overflow_checks : bool.

(** Checked-or-wrapping [+] on a [w]-bit unsigned integer. *)
Definition add_u (w a b : Z) : option Z :=
  if overflow_checks then
    (if a + b <? 2 ^ w then Some (a + b) else None)
  else Some (wrap_u w (a + b)).

(** [+] and unary [-] on [i64]. *)
Definition add_i64 (a b : Z) : option Z :=
  if overflow_checks then
    (if (-2 ^ 63 <=? a + b) && (a + b <? 2 ^ 63) then Some (a + b) else None)
  else Some (wrap_i64 (a + b)).

Definition neg_i64 (a : Z) : option Z :=
  if overflow_checks then
    (if -a <? 2 ^ 63 then Some (- a) else None)
  else Some (wrap_i64 (- a)).

(** [fn varint_to_svarint(n: u64) -> i64]; [(n >> 1) as i64] is exact
    since [n >> 1 < 2^63]. *)
Definition varint_to_svarint (n : Z) : option Z :=
  if Z.land n 1 =? 1 then
    match add_i64 (Z.shiftr n 1) 1 with
    | Some t => neg_i64 t
    | None => None
    end
  else Some (Z.shiftr n 1).
End Arith.

(** [fn svarint_to_varint(n: i64) -> u64]: [<<] on [i64] never checks
    the value (only the shift amount), [>>] is arithmetic, [as u64] wraps. *)
Definition svarint_to_varint (n : Z) : Z :=
  wrap_u 64 (Z.lxor (wrap_i64 (Z.shiftl n 1)) (Z.shiftr n 63)).

(** ** Reader *)

(** [struct PbReader { buf: &[u8], pos: usize }] *)
Record PbReader := mkPbReader { rbuf : list Z; rpos : Z }.

(** [PbReader::new] *)
Definition PbReader_new (buf : list Z) : PbReader := mkPbReader buf 0.

Definition reader_is_eof (r : PbReader) : bool :=
  rpos r =? Z.of_nat (length (rbuf r)).

Definition has_next (r : PbReader) : bool :=
  rpos r <? Z.of_nat (length (rbuf r)).

(** [self.buf[self.pos]], only evaluated under [has_next]. *)
Definition cur_byte (r : PbReader) : Z := nth (Z.to_nat (rpos r)) (rbuf r) 0.

Definition peek_next_u8 (r : PbReader) : option Z :=
  if has_next r then Some (cur_byte r) else None.

Definition next_u8 (r : PbReader) : option Z * PbReader :=
  if has_next r then (Some (cur_byte r), mkPbReader (rbuf r) (rpos r + 1))
  else (None, r).

(** The key decoding shared by [peek_next_key] and [next_key]. *)
Definition decode_key (key : Z) : result (Z * WireType) :=
  match wire_type_from_u8 (Z.land key 7) with
  | Some wt => Ok (Z.shiftr key 3, wt)
  | None => Err (InvalidWireType (Z.land key 7))
  end.

(** [peek_next_key(&self)] *)
Definition peek_next_key (r : PbReader) : result (Z * WireType) :=
  match peek_next_u8 r with
  | Some key => decode_key key
  | None => Err Eof
  end.

(** [next_key(&mut self)] *)
Definition next_key : M PbReader (Z * WireType) :=
  let* key := ok_or next_u8 Eof in
  fun r => Some (decode_key key, r).

(** [next_fixed32]/[next_fixed64]: [self.pos + n] cannot overflow, the
    position being at most the length of a slice ([<= isize::MAX]). *)
Definition next_fixed (n : Z) : M PbReader (list Z) :=
  fun r =>
    if Z.of_nat (length (rbuf r)) <? rpos r + n then Some (Err UnexpectedEof, r)
    else Some (Ok (take (Z.to_nat n) (drop (Z.to_nat (rpos r)) (rbuf r))),
               mkPbReader (rbuf r) (rpos r + n)).

Definition next_fixed32 : M PbReader (list Z) := next_fixed 4.
Definition next_fixed64 : M PbReader (list Z) := next_fixed 8.

(** [&buf[start..end]]: panics when [start > end] or [end > buf.len()]. *)
Definition slice (buf : list Z) (start stop : Z) : option (list Z) :=
  if stop <? start then None
  else if Z.of_nat (length buf) <? stop then None
  else Some (take (Z.to_nat (stop - start)) (drop (Z.to_nat start) buf)).

(** UTF-8 well-formedness as checked by [core::str::from_utf8]
    (no overlong forms, no surrogates, nothing above U+10FFFF). *)
Definition in_range (lo hi b : Z) : bool := (lo <=? b) && (b <=? hi).

Fixpoint utf8_valid (l : list Z) : bool :=
  match l with
  | [] => true
  | b :: l1 =>
    if b <? 128 then utf8_valid l1
    else if in_range 194 223 b then
      match l1 with
      | c1 :: l2 => in_range 128 191 c1 && utf8_valid l2
      | _ => false
      end
    else if in_range 224 239 b then
      match l1 with
      | c1 :: c2 :: l3 =>
        (if b =? 224 then in_range 160 191 c1
         else if b =? 237 then in_range 128 159 c1
         else in_range 128 191 c1)
        && in_range 128 191 c2 && utf8_valid l3
      | _ => false
      end
    else if in_range 240 244 b then
      match l1 with
      | c1 :: c2 :: c3 :: l4 =>
        (if b =? 240 then in_range 144 191 c1
         else if b =? 244 then in_range 128 143 c1
         else in_range 128 191 c1)
        && in_range 128 191 c2 && in_range 128 191 c3 && utf8_valid l4
      | _ => false
      end
    else false
  end.

Section Reader.
Variable overflow_checks : bool.

(** The body of the [loop] of [next_varint]; [fuel] counts the iterations
    left.  Eleven iterations always suffice: the eleventh has
    [bitpos = 70] and returns, at the latest, from [checked_shl].
    [result += tmp] is the checked or wrapping [u64] addition. *)
Fixpoint next_varint_loop (fuel : nat) (result bitpos : Z) : M PbReader Z :=
  match fuel with
  | O => fail VarintOverflow
  | S fuel' =>
    let* b := ok_or next_u8 UnexpectedEof in
    match checked_shl 64 (Z.land b 127) bitpos with
    | None => fail VarintOverflow
    | Some tmp =>
      match add_u overflow_checks 64 result tmp with
      | None => panic
      | Some result' =>
        if Z.land b 128 =? 0 then ret result'
        else next_varint_loop fuel' result' (bitpos + 7)
      end
    end
  end.

(** [next_varint(&mut self)] *)
Definition next_varint : M PbReader Z := next_varint_loop 11 0 0.

(** [next_bytes(&mut self)]: [len as usize] is exact on a 64-bit target;
    [self.pos + len] is the checked or wrapping [usize] addition. *)
Definition next_bytes : M PbReader (list Z) :=
  let* len := next_varint in
  fun r =>
    match add_u overflow_checks 64 (rpos r) len with
    | None => None
    | Some stop =>
      if Z.of_nat (length (rbuf r)) <? stop then Some (Err UnexpectedEof, r)
      else match slice (rbuf r) (rpos r) stop with
           | None => None
           | Some bytes => Some (Ok bytes, mkPbReader (rbuf r) stop)
           end
    end.

(** [next_string(&mut self)] *)
Definition next_string : M PbReader (list Z) :=
  let* raw := next_bytes in
  if utf8_valid raw then ret raw else fail InvalidUtf8String.

(** [next_embedded_message(&mut self)] *)
Definition next_embedded_message : M PbReader PbReader :=
  let* raw := next_bytes in ret (PbReader_new raw).

(** [next_svarint(&mut self)] *)
Definition next_svarint : M PbReader Z :=
  let* val := next_varint in
  match varint_to_svarint overflow_checks val with
  | Some v => ret v
  | None => panic
  end.

(** [skip_next_field(&mut self)] *)
Definition skip_next_field : M PbReader unit :=
  let* k := next_key in
  match snd k with
  | Varint => let* _v := next_varint in ret tt
  | Bytes => let* _v := next_bytes in ret tt
  | Bit32 => let* _v := next_fixed32 in ret tt
  | Bit64 => let* _v := next_fixed64 in ret tt
  end.
End Reader.

(** ** Writer *)

(** [struct PbWriter { buf: &mut [u8], pos: usize }] *)
Record PbWriter := mkPbWriter { wbuf : list Z; wpos : Z }.

(** [PbWriter::new] *)
Definition PbWriter_new (buf : list Z) : PbWriter := mkPbWriter buf 0.

Definition writer_is_eof (w : PbWriter) : bool :=
  wpos w =? Z.of_nat (length (wbuf w)).

(** [as_bytes(&self)]: [&self.buf[..self.pos]]. *)
Definition as_bytes (w : PbWriter) : list Z := take (Z.to_nat (wpos w)) (wbuf w).

(** [write_u8(&mut self, val)] *)
Definition write_u8 (val : Z) : M PbWriter unit :=
  fun w =>
    if wpos w <? Z.of_nat (length (wbuf w)) then
      Some (Ok tt, mkPbWriter (<[Z.to_nat (wpos w) := val]> (wbuf w)) (wpos w + 1))
    else Some (Err BufferOverflow, w).

(** [write_bytes(&mut self, val)]: [self.pos + val.len()] is a sum of two
    slice lengths ([<= isize::MAX] each) and cannot overflow [usize]. *)
Definition write_bytes (val : list Z) : M PbWriter unit :=
  fun w =>
    let len := Z.of_nat (length val) in
    if wpos w + len <? Z.of_nat (length (wbuf w)) then
      Some (Ok tt,
            mkPbWriter (take (Z.to_nat (wpos w)) (wbuf w) ++ val
                          ++ drop (Z.to_nat (wpos w + len)) (wbuf w))
                       (wpos w + len))
    else Some (Err BufferOverflow, w).

(** [*self.last_u8_mut() &= 0x7f]: [self.pos - 1] panics (debug) or wraps
    to an out-of-bounds index (release) when [pos = 0]. *)
Definition clear_last_msb : M PbWriter unit :=
  fun w =>
    if wpos w =? 0 then None
    else match wbuf w !! Z.to_nat (wpos w - 1) with
         | Some b =>
           Some (Ok tt, mkPbWriter (<[Z.to_nat (wpos w - 1) := Z.land b 127]> (wbuf w))
                                   (wpos w))
         | None => None
         end.

(** The [while value > 0] loop of [write_varint]; [fuel] bounds the
    iterations: ten suffice for a [u64] value (it loses 7 bits each time).
    A failed [write_u8] restores [self.pos = fallback_pos]. *)
Fixpoint write_varint_loop (fuel : nat) (value fallback_pos : Z) : M PbWriter unit :=
  match fuel with
  | O => ret tt
  | S fuel' =>
    if 0 <? value then
      fun w =>
        match write_u8 (Z.lor (Z.land value 127) 128) w with
        | Some (Ok _, w') => write_varint_loop fuel' (Z.shiftr value 7) fallback_pos w'
        | Some (Err e, w') => Some (Err e, mkPbWriter (wbuf w') fallback_pos)
        | None => None
        end
    else ret tt
  end.

(** [write_varint(&mut self, value: u64)] *)
Definition write_varint (value : Z) : M PbWriter unit :=
  fun w =>
    let fallback_pos := wpos w in
    if value =? 0 then write_u8 0 w
    else (let* _u := write_varint_loop 10 value fallback_pos in clear_last_msb) w.

Section Writer.
Variable overflow_checks : bool.

(** [field_number.checked_shl(3).ok_or(InvalidFieldNumber(field_number))?
    + wt as u8] on [u8]. *)
Definition field_key (field_number : Z) (wt : WireType) : M PbWriter Z :=
  match checked_shl 8 field_number 3 with
  | None => fail (InvalidFieldNumber field_number)
  | Some k =>
    match add_u overflow_checks 8 k (wire_type_u8 wt) with
    | Some key => ret key
    | None => panic
    end
  end.

(** [encode_varint_field(&mut self, field_number: u8, value: u64)] *)
Definition encode_varint_field (field_number value : Z) : M PbWriter unit :=
  let* key := field_key field_number Varint in
  let* _u := write_u8 key in
  write_varint value.

(** [encode_svarint_field(&mut self, field_number: u8, value: i64)] *)
Definition encode_svarint_field (field_number value : Z) : M PbWriter unit :=
  encode_varint_field field_number (svarint_to_varint value).

(** [encode_bytes_field(&mut self, field_number: u8, value: &[u8])] *)
Definition encode_bytes_field (field_number : Z) (value : list Z) : M PbWriter unit :=
  let* key := field_key field_number Bytes in
  let* _u := write_u8 key in
  let* _u := write_varint (Z.of_nat (length value)) in
  write_bytes value.

(** [encode_string_field(&mut self, field_number: u8, value: &str)]: the
    string is given by its UTF-8 bytes ([value.as_bytes()]). *)
Definition encode_string_field (field_number : Z) (value : list Z) : M PbWriter unit :=
  encode_bytes_field field_number value.
End Writer.

(** ** Running a writer method on a fresh zeroed buffer *)

Definition run_w {A} (m : M PbWriter A) (n : nat) : option (result A * list Z) :=
  match m (PbWriter_new (repeat 0 n)) with
  | Some (r, w) => Some (r, as_bytes w)
  | None => None
  end.

(** The Rust invariant [pos <= buf.len()] of both cursors. *)
Definition reader_wf (r : PbReader) : Prop :=
  0 <= rpos r <= Z.of_nat (length (rbuf r)).

Definition writer_wf (w : PbWriter) : Prop :=
  0 <= wpos w <= Z.of_nat (length (wbuf w)).

(** ** Basic lemmas *)

Lemma next_u8_at (pre post : list Z) (b : Z) :
  next_u8 (mkPbReader (pre ++ b :: post) (Z.of_nat (length pre))) =
  (Some b, mkPbReader (pre ++ b :: post) (Z.of_nat (length pre) + 1)).
Proof.
  unfold next_u8, has_next, cur_byte; simpl.
  rewrite length_app; simpl.
  destruct (Z.ltb_spec (Z.of_nat (length pre)) (Z.of_nat (length pre + S (length post))));
    [|lia].
  rewrite Nat2Z.id, nth_middle. reflexivity.
Qed.

Lemma peek_next_u8_at (pre post : list Z) (b : Z) :
  peek_next_u8 (mkPbReader (pre ++ b :: post) (Z.of_nat (length pre))) = Some b.
Proof.
  unfold peek_next_u8, has_next, cur_byte; simpl.
  rewrite length_app; simpl.
  destruct (Z.ltb_spec (Z.of_nat (length pre)) (Z.of_nat (length pre + S (length post))));
    [|lia].
  rewrite Nat2Z.id, nth_middle. reflexivity.
Qed.

Lemma next_u8_end (r : PbReader) :
  Z.of_nat (length (rbuf r)) <= rpos r -> next_u8 r = (None, r).
Proof.
  intros H. unfold next_u8, has_next.
  destruct (Z.ltb_spec (rpos r) (Z.of_nat (length (rbuf r)))); [lia|reflexivity].
Qed.

(** ** Claims *)

(** C9: for every key byte [b] at the cursor, [next_key] and [peek_next_key]
    return [(b >> 3, wt)] where the low three bits map 0, 1, 2, 5 to
    [Varint], [Bit64], [Bytes], [Bit32], and fail with
    [InvalidWireType(b & 7)] otherwise; [next_key] consumes the byte.  In
    particular 0x08 decodes to (1, Varint), 0x12 to (2, Bytes) and 0x07
    fails with [InvalidWireType(7)]. *)
Theorem key_decoding (pre post : list Z) (b : Z) :
  let r := mkPbReader (pre ++ b :: post) (Z.of_nat (length pre)) in
  let res :=
    if Z.land b 7 =? 0 then Ok (Z.shiftr b 3, Varint)
    else if Z.land b 7 =? 1 then Ok (Z.shiftr b 3, Bit64)
    else if Z.land b 7 =? 2 then Ok (Z.shiftr b 3, Bytes)
    else if Z.land b 7 =? 5 then Ok (Z.shiftr b 3, Bit32)
    else Err (InvalidWireType (Z.land b 7)) in
  peek_next_key r = res /\
  next_key r = Some (res, mkPbReader (pre ++ b :: post) (Z.of_nat (length pre) + 1)) /\
  next_key (PbReader_new [8]) = Some (Ok (1, Varint), mkPbReader [8] 1) /\
  next_key (PbReader_new [18]) = Some (Ok (2, Bytes), mkPbReader [18] 1) /\
  next_key (PbReader_new [7]) = Some (Err (InvalidWireType 7), mkPbReader [7] 1) /\
  peek_next_key (PbReader_new [8]) = Ok (1, Varint) /\
  peek_next_key (PbReader_new [18]) = Ok (2, Bytes) /\
  peek_next_key (PbReader_new [7]) = Err (InvalidWireType 7).
Proof.
  intros r res.
  assert (Hd : decode_key b = res).
  { subst res. unfold decode_key, wire_type_from_u8.
    destruct (Z.land b 7 =? 0); [reflexivity|].
    destruct (Z.land b 7 =? 1); [reflexivity|].
    destruct (Z.land b 7 =? 2); [reflexivity|].
    destruct (Z.land b 7 =? 5); reflexivity. }
  repeat split; try reflexivity.
  - unfold peek_next_key; subst r; rewrite peek_next_u8_at; exact Hd.
  - unfold next_key, bind, ok_or; subst r; rewrite next_u8_at, Hd; reflexivity.
Qed.

(** C7: the raw multi-byte writer [write_bytes] rejects with
    [BufferOverflow] every write with [pos + val.len() = buf.len()], although
    the bytes would fit exactly, leaving the writer unchanged; this includes
    the empty payload when [pos = buf.len()]. *)
Theorem write_bytes_exact_fit_rejected (w : PbWriter) (val : list Z) :
  wpos w + Z.of_nat (length val) = Z.of_nat (length (wbuf w)) ->
  write_bytes val w = Some (Err BufferOverflow, w) /\
  (wpos w = Z.of_nat (length (wbuf w)) -> write_bytes [] w = Some (Err BufferOverflow, w)).
Proof.
  intros H. unfold write_bytes. split.
  - rewrite H, Z.ltb_irrefl. reflexivity.
  - intros H'. simpl. rewrite Z.add_0_r, H', Z.ltb_irrefl. reflexivity.
Qed.

Lemma write_bytes_exact_fit_rejected_witness :
  (2 + Z.of_nat (length [7; 9]) = Z.of_nat (length [1; 2; 0; 0])) /\
  write_bytes [7; 9] (mkPbWriter [1; 2; 0; 0] 2) =
    Some (Err BufferOverflow, mkPbWriter [1; 2; 0; 0] 2).
Proof.
  split; [reflexivity|].
  apply (write_bytes_exact_fit_rejected (mkPbWriter [1; 2; 0; 0] 2) [7; 9]).
  reflexivity.
Defined.

(** The key computation of the field encoders never fails with
    [InvalidFieldNumber]: [checked_shl(3)] on [u8] only rejects shift
    amounts of at least 8, and the high bits of the field number are lost. *)
Lemma field_key_never_invalid (oc : bool) (f : Z) (wt : WireType) (w : PbWriter) :
  field_key oc f wt w = Some (Ok (Z.shiftl f 3 mod 2 ^ 8 + wire_type_u8 wt), w).
Proof.
  unfold field_key, checked_shl, wrap_u; simpl.
  assert (H : 0 <= Z.shiftl f 3 mod 2 ^ 8 <= 248).
  { rewrite Z.shiftl_mul_pow2 by lia.
    change (2 ^ 3) with 8. change (2 ^ 8) with 256.
    assert (0 <= f * 8 mod 256 < 256) by (apply Z.mod_pos_bound; lia).
    assert ((f * 8) mod 256 = 8 * ((f mod 32))).
    { rewrite Z.mul_comm. change 256 with (8 * 32). rewrite Z.mul_mod_distr_l; lia. }
    assert (0 <= f mod 32 < 32) by (apply Z.mod_pos_bound; lia). lia. }
  unfold add_u, wrap_u.
  destruct oc.
  - destruct (Z.ltb_spec (Z.shiftl f 3 mod 2 ^ 8 + wire_type_u8 wt) (2 ^ 8));
      [reflexivity|destruct wt; simpl in *; lia].
  - rewrite (Z.mod_small (Z.shiftl f 3 mod 2 ^ 8 + wire_type_u8 wt));
      [reflexivity|destruct wt; simpl in *; lia].
Qed.

(** C1 (code_bug): at field number 32, which does not fit in five bits,
    [encode_varint_field] and [encode_bytes_field] succeed instead of failing
    with [InvalidFieldNumber(32)]; the key byte written is that of field 0. *)
Theorem field_number_32_accepted (oc : bool) :
  run_w (encode_varint_field oc 32 0) 2 = Some (Ok tt, [0; 0]) /\
  run_w (encode_bytes_field oc 32 []) 3 = Some (Ok tt, [2; 0]) /\
  run_w (encode_varint_field oc 255 1) 2 = Some (Ok tt, [248; 1]).
Proof. destruct oc; repeat split; reflexivity. Qed.

(** C2 (code_bug): a declared length of [2^64 - 1] after a ten-byte length
    varint makes [next_bytes] panic instead of returning [UnexpectedEof]:
    with overflow checks [self.pos + len] overflows; without them the
    wrapped sum [9] passes the bounds check and the slice [buf[10..9]] panics.
    The same holds for the length [2^64 - 5]; a length that does not wrap
    is rejected with [UnexpectedEof]. *)
Theorem next_bytes_huge_length_panics (oc : bool) :
  next_bytes oc (PbReader_new (repeat 255 9 ++ [1])) = None /\
  next_bytes oc (PbReader_new (251 :: repeat 255 8 ++ [1; 0; 0])) = None /\
  next_bytes oc (PbReader_new [3; 1; 2]) = Some (Err UnexpectedEof, mkPbReader [3; 1; 2] 1).
Proof. destruct oc; repeat split; reflexivity. Qed.

(** *** Zigzag *)

Lemma wrap_i64_small (z : Z) : -2 ^ 63 <= z < 2 ^ 63 -> wrap_i64 z = z.
Proof.
  intros H. unfold wrap_i64. rewrite Z.mod_small by lia. lia.
Qed.

Lemma wrap_i64_eq (z : Z) : wrap_i64 z = z - 2 ^ 64 * ((z + 2 ^ 63) / 2 ^ 64).
Proof.
  unfold wrap_i64. rewrite Z.mod_eq by lia. lia.
Qed.

Lemma shiftr_i64_63 (v : Z) :
  -2 ^ 63 <= v < 2 ^ 63 -> Z.shiftr v 63 = if 0 <=? v then 0 else -1.
Proof.
  intros H. rewrite Z.shiftr_div_pow2 by lia.
  destruct (Z.leb_spec 0 v).
  - apply Z.div_small; lia.
  - symmetry. apply (Z.div_unique _ _ _ (v + 2 ^ 63)); lia.
Qed.

(** [svarint_to_varint] is the zigzag map [v >= 0 -> 2v], [v < 0 -> -2v-1]. *)
Lemma svarint_to_varint_value (v : Z) :
  -2 ^ 63 <= v < 2 ^ 63 ->
  svarint_to_varint v = if 0 <=? v then 2 * v else - 2 * v - 1.
Proof.
  intros H. unfold svarint_to_varint, wrap_u.
  rewrite shiftr_i64_63 by exact H.
  rewrite Z.shiftl_mul_pow2 by lia. change (2 ^ 1) with 2.
  rewrite wrap_i64_eq.
  destruct (Z.leb_spec 0 v).
  - rewrite Z.lxor_0_r.
    replace (v * 2 - 2 ^ 64 * ((v * 2 + 2 ^ 63) / 2 ^ 64))
      with (2 * v + (- ((v * 2 + 2 ^ 63) / 2 ^ 64)) * 2 ^ 64) by lia.
    rewrite Z.mod_add by lia. apply Z.mod_small; lia.
  - rewrite Z.lxor_m1_r. unfold Z.lnot.
    replace (Z.pred (- (v * 2 - 2 ^ 64 * ((v * 2 + 2 ^ 63) / 2 ^ 64))))
      with ((- 2 * v - 1) + ((v * 2 + 2 ^ 63) / 2 ^ 64) * 2 ^ 64) by lia.
    rewrite Z.mod_add by lia. apply Z.mod_small; lia.
Qed.

Lemma land_1_parity (n : Z) : Z.land n 1 = n mod 2.
Proof. change 1 with (Z.ones 1). rewrite Z.land_ones by lia. reflexivity. Qed.

(** Without overflow checks the zigzag decoder inverts the encoder on
    every [i64]. *)
Lemma zigzag_roundtrip_release (v : Z) :
  -2 ^ 63 <= v < 2 ^ 63 -> varint_to_svarint false (svarint_to_varint v) = Some v.
Proof.
  intros H. rewrite svarint_to_varint_value by exact H.
  unfold varint_to_svarint, add_i64, neg_i64.
  rewrite land_1_parity, Z.shiftr_div_pow2 by lia. change (2 ^ 1) with 2.
  destruct (Z.leb_spec 0 v).
  - rewrite Z.mul_comm, Z.mod_mul, Z.div_mul by lia. reflexivity.
  - replace (-2 * v - 1) with (1 + (- v - 1) * 2) by lia.
    rewrite Z.mod_add, Z.div_add by lia. simpl.
    change (1 / 2) with 0. rewrite Z.add_0_l.
    f_equal.
    destruct (Z.eq_dec v (- 2 ^ 63)) as [->|Hv]; [reflexivity|].
    rewrite (wrap_i64_small (- v - 1 + 1)) by lia.
    rewrite wrap_i64_small by lia. lia.
Qed.

(** With overflow checks it inverts it on every [i64] but [i64::MIN]. *)
Lemma zigzag_roundtrip_debug (v : Z) :
  -2 ^ 63 < v < 2 ^ 63 -> varint_to_svarint true (svarint_to_varint v) = Some v.
Proof.
  intros H. rewrite svarint_to_varint_value by lia.
  unfold varint_to_svarint, add_i64, neg_i64.
  rewrite land_1_parity, Z.shiftr_div_pow2 by lia. change (2 ^ 1) with 2.
  destruct (Z.leb_spec 0 v).
  - rewrite Z.mul_comm, Z.mod_mul, Z.div_mul by lia. reflexivity.
  - replace (-2 * v - 1) with (1 + (- v - 1) * 2) by lia.
    rewrite Z.mod_add, Z.div_add by lia. simpl.
    change (1 / 2) with 0. rewrite Z.add_0_l.
    destruct (Z.leb_spec (-2 ^ 63) (- v - 1 + 1)); [|lia].
    destruct (Z.ltb_spec (- v - 1 + 1) (2 ^ 63)); [|lia]. simpl.
    destruct (Z.ltb_spec (- (- v - 1 + 1)) (2 ^ 63)); [|lia].
    f_equal; lia.
Qed.

(** C6 (code_bug): [zigzag_encode(0) = 0], [zigzag_encode(-1) = 1],
    [zigzag_encode(1) = 2], but with overflow checks (the debug profile)
    decoding the encoding [u64::MAX] of [i64::MIN] panics in
    [(n >> 1) as i64 + 1] instead of returning [i64::MIN]; without overflow
    checks the wrapping arithmetic happens to return [i64::MIN]. *)
Theorem zigzag_min_panics_with_overflow_checks :
  svarint_to_varint 0 = 0 /\ svarint_to_varint (-1) = 1 /\ svarint_to_varint 1 = 2 /\
  svarint_to_varint (- 2 ^ 63) = 2 ^ 64 - 1 /\
  varint_to_svarint true (svarint_to_varint (- 2 ^ 63)) = None /\
  varint_to_svarint false (svarint_to_varint (- 2 ^ 63)) = Some (- 2 ^ 63) /\
  next_svarint true (PbReader_new (repeat 255 9 ++ [1])) = None.
Proof. repeat split; reflexivity. Qed.

(** *** Varint decoding *)

(** Facts on a single byte, checked over the whole range [0, 256). *)
Definition byte_range : list Z := map Z.of_nat (seq 0 256).

Lemma in_byte_range (b : Z) : 0 <= b < 256 -> In b byte_range.
Proof.
  intros H. unfold byte_range. apply in_map_iff. exists (Z.to_nat b).
  split; [lia|]. apply in_seq. lia.
Qed.

Lemma land_128_byte (b : Z) : 0 <= b < 256 -> (Z.land b 128 =? 0) = (b <? 128).
Proof.
  intros H.
  assert (Hall : forallb (fun b => Bool.eqb (Z.land b 128 =? 0) (b <? 128)) byte_range = true)
    by reflexivity.
  rewrite forallb_forall in Hall. specialize (Hall b (in_byte_range b H)).
  apply Bool.eqb_prop in Hall. exact Hall.
Qed.

Lemma land_127 (b : Z) : Z.land b 127 = b mod 128.
Proof. change 127 with (Z.ones 7). rewrite Z.land_ones by lia. reflexivity. Qed.

(** Adding a 7-bit group shifted by [s < 64], truncated to 64 bits, to an
    accumulator below [2^s] neither overflows nor exceeds [2^(s+7)]. *)
Lemma group_add_bound (x s r : Z) :
  0 <= x < 128 -> 0 <= s < 64 -> 0 <= r < 2 ^ s ->
  0 <= r + (x * 2 ^ s) mod 2 ^ 64 < 2 ^ 64 /\
  r + (x * 2 ^ s) mod 2 ^ 64 < 2 ^ (s + 7).
Proof.
  intros Hx Hs Hr.
  assert (H64 : 2 ^ 64 = 2 ^ s * 2 ^ (64 - s)) by (rewrite <- Z.pow_add_r; f_equal; lia).
  assert (H7 : 2 ^ (s + 7) = 2 ^ s * 128) by (rewrite Z.pow_add_r; lia).
  assert (Hps : 0 < 2 ^ s) by (apply Z.pow_pos_nonneg; lia).
  assert (Hpt : 0 < 2 ^ (64 - s)) by (apply Z.pow_pos_nonneg; lia).
  rewrite H64, (Z.mul_comm x), Z.mul_mod_distr_l by lia.
  assert (0 <= x mod 2 ^ (64 - s) < 2 ^ (64 - s)) by (apply Z.mod_pos_bound; lia).
  assert (x mod 2 ^ (64 - s) <= x) by (apply Z.mod_le; lia).
  rewrite H7. split; nia.
Qed.

Lemma next_u8_drop (buf rest : list Z) (p b : Z) :
  0 <= p -> drop (Z.to_nat p) buf = b :: rest ->
  next_u8 (mkPbReader buf p) = (Some b, mkPbReader buf (p + 1)).
Proof.
  intros Hp Hd. unfold next_u8, has_next, cur_byte; simpl.
  assert (Hl : length (drop (Z.to_nat p) buf) = S (length rest)) by (rewrite Hd; reflexivity).
  rewrite length_drop in Hl.
  destruct (Z.ltb_spec p (Z.of_nat (length buf))); [|lia].
  replace (Z.to_nat p) with (Z.to_nat p + 0)%nat by lia.
  rewrite <- nth_skipn. change (skipn (Z.to_nat p) buf) with (drop (Z.to_nat p) buf).
  rewrite Hd. reflexivity.
Qed.

Lemma drop_succ (buf rest : list Z) (p b : Z) :
  0 <= p -> drop (Z.to_nat p) buf = b :: rest -> drop (Z.to_nat (p + 1)) buf = rest.
Proof.
  intros Hp Hd. replace (Z.to_nat (p + 1)) with (Z.to_nat p + 1)%nat by lia.
  rewrite <- drop_drop, Hd. reflexivity.
Qed.

Lemma drop_end (buf : list Z) (p : Z) :
  0 <= p -> drop (Z.to_nat p) buf = [] -> Z.of_nat (length buf) <= p.
Proof.
  intros Hp Hd.
  assert (Hl : length (drop (Z.to_nat p) buf) = 0%nat) by (rewrite Hd; reflexivity).
  rewrite length_drop in Hl. lia.
Qed.

Section VarintLoop.
Variable oc : bool.

(** One iteration of the decoding loop on a byte [b] at the cursor. *)
Lemma varint_step (fuel : nat) (result bitpos : Z) (buf rest : list Z) (p b : Z) :
  0 <= p -> drop (Z.to_nat p) buf = b :: rest ->
  0 <= b < 256 -> 0 <= bitpos < 64 -> 0 <= result < 2 ^ bitpos ->
  next_varint_loop oc (S fuel) result bitpos (mkPbReader buf p) =
  let result' := result + (b mod 128 * 2 ^ bitpos) mod 2 ^ 64 in
  if b <? 128 then Some (Ok result', mkPbReader buf (p + 1))
  else next_varint_loop oc fuel result' (bitpos + 7) (mkPbReader buf (p + 1)).
Proof.
  intros Hp Hd Hb Hs Hr. cbn [next_varint_loop]. unfold bind, ok_or.
  rewrite (next_u8_drop buf rest p b Hp Hd).
  unfold checked_shl, wrap_u.
  destruct (Z.ltb_spec bitpos 64); [|lia].
  rewrite Z.shiftl_mul_pow2, land_127 by lia.
  assert (Hm : 0 <= b mod 128 < 128) by (apply Z.mod_pos_bound; lia).
  destruct (group_add_bound (b mod 128) bitpos result Hm Hs Hr) as [Hb1 _].
  assert (Ha : add_u oc 64 result (b mod 128 * 2 ^ bitpos mod 2 ^ 64) =
               Some (result + b mod 128 * 2 ^ bitpos mod 2 ^ 64)).
  { unfold add_u, wrap_u. destruct oc.
    - destruct (Z.ltb_spec (result + b mod 128 * 2 ^ bitpos mod 2 ^ 64) (2 ^ 64));
        [reflexivity|lia].
    - rewrite Z.mod_small by lia. reflexivity. }
  rewrite Ha, land_128_byte by exact Hb.
  destruct (b <? 128); reflexivity.
Qed.

(** The loop runs through a block of continuation bytes. *)
Lemma varint_cont (cont : list Z) :
  forall (fuel k : nat) (result : Z) (buf post : list Z) (p : Z),
  Forall (fun b => 128 <= b < 256) cont ->
  (k + length cont <= 10)%nat -> (length cont <= fuel)%nat ->
  0 <= p -> drop (Z.to_nat p) buf = cont ++ post ->
  0 <= result < 2 ^ (7 * Z.of_nat k) -> result < 2 ^ 64 ->
  exists result',
    0 <= result' < 2 ^ (7 * Z.of_nat (k + length cont)) /\ result' < 2 ^ 64 /\
    next_varint_loop oc fuel result (7 * Z.of_nat k) (mkPbReader buf p) =
    next_varint_loop oc (fuel - length cont) result'
      (7 * Z.of_nat (k + length cont)) (mkPbReader buf (p + Z.of_nat (length cont))).
Proof.
  induction cont as [|b cont IH]; intros fuel k result buf post p Hc Hk Hf Hp Hd Hr H64.
  - exists result. simpl. rewrite Nat.add_0_r, Nat.sub_0_r, Z.add_0_r. auto.
  - inversion Hc as [|? ? Hb Hc']; subst.
    destruct fuel as [|fuel]; [simpl in Hf; lia|].
    simpl in Hk, Hf, Hd.
    rewrite (varint_step fuel result (7 * Z.of_nat k) buf (cont ++ post) p b Hp Hd)
      by lia.
    cbv zeta. destruct (Z.ltb_spec b 128); [lia|].
    assert (Hm : 0 <= b mod 128 < 128) by (apply Z.mod_pos_bound; lia).
    destruct (group_add_bound (b mod 128) (7 * Z.of_nat k) result Hm ltac:(lia) Hr)
      as [Hb1 Hb2].
    replace (7 * Z.of_nat k + 7) with (7 * Z.of_nat (S k)) by lia.
    replace (7 * Z.of_nat k + 7) with (7 * Z.of_nat (S k)) in Hb2 by lia.
    assert (Hk' : (S k + length cont <= 10)%nat) by lia.
    assert (Hf' : (length cont <= fuel)%nat) by lia.
    destruct (IH fuel (S k) (result + b mod 128 * 2 ^ (7 * Z.of_nat k) mod 2 ^ 64)
                buf post (p + 1) Hc' Hk' Hf' ltac:(lia)
                (drop_succ buf (cont ++ post) p b Hp Hd) ltac:(split; lia) ltac:(lia))
      as (r' & Hr1 & Hr2 & Heq).
    exists r'. simpl length.
    replace (k + S (length cont))%nat with (S k + length cont)%nat by lia.
    replace (p + Z.of_nat (S (length cont))) with (p + 1 + Z.of_nat (length cont)) by lia.
    repeat split; try lia. rewrite Heq. reflexivity.
Qed.
End VarintLoop.

Lemma drop_app_skip (buf l1 l2 : list Z) (p : Z) :
  0 <= p -> drop (Z.to_nat p) buf = l1 ++ l2 ->
  drop (Z.to_nat (p + Z.of_nat (length l1))) buf = l2.
Proof.
  intros Hp Hd. replace (Z.to_nat (p + Z.of_nat (length l1))) with (Z.to_nat p + length l1)%nat by lia.
  rewrite <- drop_drop, Hd, drop_app_length. reflexivity.
Qed.

(** C4: a varint of at most ten bytes (up to nine continuation bytes and a
    terminator) decodes successfully, even in the tenth byte where only one
    payload bit fits (the higher ones are dropped by [checked_shl]); ten
    continuation bytes followed by any eleventh byte fail with
    [VarintOverflow], since [checked_shl(70)] fails; ten continuation bytes
    that end the buffer fail with [UnexpectedEof]. *)
Theorem next_varint_ten_byte_window (oc : bool) (buf cont post : list Z) (p t : Z) :
  0 <= p -> Forall (fun b => 128 <= b < 256) cont ->
  ((length cont <= 9)%nat -> 0 <= t < 128 -> drop (Z.to_nat p) buf = cont ++ t :: post ->
   exists v, 0 <= v < 2 ^ 64 /\
     next_varint oc (mkPbReader buf p) =
     Some (Ok v, mkPbReader buf (p + Z.of_nat (length cont) + 1))) /\
  (length cont = 10%nat -> 0 <= t < 256 -> drop (Z.to_nat p) buf = cont ++ t :: post ->
   next_varint oc (mkPbReader buf p) = Some (Err VarintOverflow, mkPbReader buf (p + 11))) /\
  (length cont = 10%nat -> drop (Z.to_nat p) buf = cont ->
   next_varint oc (mkPbReader buf p) = Some (Err UnexpectedEof, mkPbReader buf (p + 10))).
Proof.
  intros Hp Hc.
  assert (Hloop : forall post', drop (Z.to_nat p) buf = cont ++ post' ->
            (length cont <= 10)%nat ->
            exists r', 0 <= r' < 2 ^ (7 * Z.of_nat (length cont)) /\ r' < 2 ^ 64 /\
              next_varint oc (mkPbReader buf p) =
              next_varint_loop oc (S (10 - length cont)) r' (7 * Z.of_nat (length cont))
                (mkPbReader buf (p + Z.of_nat (length cont)))).
  { intros post' Hd Hl. unfold next_varint.
    change (next_varint_loop oc 11 0 0 (mkPbReader buf p)) with
      (next_varint_loop oc 11 0 (7 * Z.of_nat 0) (mkPbReader buf p)).
    destruct (varint_cont oc cont 11 0 0 buf post' p Hc ltac:(lia) ltac:(lia) Hp Hd
                ltac:(simpl; lia) ltac:(lia)) as (r' & H1 & H2 & Heq).
    exists r'. rewrite Heq. replace (11 - length cont)%nat with (S (10 - length cont)) by lia.
    auto. }
  split; [|split].
  - intros Hl Ht Hd.
    destruct (Hloop (t :: post) Hd ltac:(lia)) as (r' & H1 & H2 & ->).
    pose proof (drop_app_skip buf cont (t :: post) p Hp Hd) as Hd'.
    rewrite (varint_step oc (10 - length cont) r' (7 * Z.of_nat (length cont)) buf post
               (p + Z.of_nat (length cont)) t ltac:(lia) Hd') by lia.
    cbv zeta. destruct (Z.ltb_spec t 128); [|lia].
    assert (Hm : 0 <= t mod 128 < 128) by (apply Z.mod_pos_bound; lia).
    destruct (group_add_bound (t mod 128) (7 * Z.of_nat (length cont)) r' Hm
                ltac:(lia) H1) as [Hb _].
    eexists. split; [exact Hb|reflexivity].
  - intros Hl Ht Hd.
    destruct (Hloop (t :: post) Hd ltac:(lia)) as (r' & H1 & H2 & ->).
    pose proof (drop_app_skip buf cont (t :: post) p Hp Hd) as Hd'.
    rewrite Hl in *. cbn [next_varint_loop Nat.sub]. unfold bind, ok_or.
    rewrite (next_u8_drop buf post (p + Z.of_nat 10) t ltac:(lia) Hd').
    change (7 * Z.of_nat 10) with 70. unfold checked_shl, fail. simpl.
    replace (p + Z.of_nat 10 + 1) with (p + 11) by lia. reflexivity.
  - intros Hl Hd.
    destruct (Hloop [] ltac:(rewrite app_nil_r; exact Hd) ltac:(lia)) as (r' & H1 & H2 & ->).
    pose proof (drop_app_skip buf cont [] p Hp ltac:(rewrite app_nil_r; exact Hd)) as Hd'.
    rewrite Hl in *. cbn [next_varint_loop Nat.sub]. unfold bind, ok_or.
    rewrite (next_u8_end (mkPbReader buf (p + Z.of_nat 10)))
      by (simpl; apply drop_end; [lia|exact Hd']).
    reflexivity.
Qed.

Lemma next_varint_ten_byte_window_witness :
  (0 <= 0 /\ Forall (fun b => 128 <= b < 256) (repeat 255 9)) /\
  exists v, 0 <= v < 2 ^ 64 /\
    next_varint true (mkPbReader (repeat 255 9 ++ [1]) 0) =
    Some (Ok v, mkPbReader (repeat 255 9 ++ [1]) (0 + Z.of_nat (length (repeat 255 9)) + 1)).
Proof.
  split; [split; [lia|repeat constructor; lia]|].
  apply (next_varint_ten_byte_window true (repeat 255 9 ++ [1]) (repeat 255 9) [] 0 1);
    [lia|repeat constructor; lia|simpl; lia|lia|reflexivity].
Defined.

(** *** Varint encoding *)

(** The bytes written by [write_varint_loop] before the final
    [last_u8_mut() &= 0x7f]. *)
Fixpoint loop_bytes (fuel : nat) (value : Z) : list Z :=
  match fuel with
  | O => []
  | S fuel' =>
    if 0 <? value then Z.lor (Z.land value 127) 128 :: loop_bytes fuel' (Z.shiftr value 7)
    else []
  end.

(** The base-128 encoding with the continuation bit on all but the last
    byte, i.e. [loop_bytes] with the top bit of its last byte cleared. *)
Fixpoint varint_encoding (fuel : nat) (value : Z) : list Z :=
  match fuel with
  | O => []
  | S fuel' =>
    if value <? 128 then [value]
    else Z.lor (Z.land value 127) 128 :: varint_encoding fuel' (Z.shiftr value 7)
  end.

Definition low_range : list Z := map Z.of_nat (seq 0 128).

Lemma group_byte (x : Z) :
  0 <= x < 128 ->
  128 <= Z.lor x 128 < 256 /\ Z.lor x 128 mod 128 = x /\ Z.land (Z.lor x 128) 127 = x.
Proof.
  intros H.
  assert (Hall : forallb (fun x => (128 <=? Z.lor x 128) && (Z.lor x 128 <? 256) &&
                                   (Z.lor x 128 mod 128 =? x) &&
                                   (Z.land (Z.lor x 128) 127 =? x)) low_range = true)
    by reflexivity.
  rewrite forallb_forall in Hall.
  assert (Hin : In x low_range).
  { unfold low_range. apply in_map_iff. exists (Z.to_nat x). split; [lia|]. apply in_seq. lia. }
  specialize (Hall x Hin).
  repeat rewrite andb_true_iff in Hall. destruct Hall as [[[H1 H2] H3] H4].
  apply Z.leb_le in H1. apply Z.ltb_lt in H2. apply Z.eqb_eq in H3. apply Z.eqb_eq in H4.
  auto.
Qed.

Lemma write_u8_at (pre rest : list Z) (x y : Z) :
  write_u8 x (mkPbWriter (pre ++ y :: rest) (Z.of_nat (length pre))) =
  Some (Ok tt, mkPbWriter (pre ++ x :: rest) (Z.of_nat (length pre) + 1)).
Proof.
  unfold write_u8; simpl. rewrite length_app; simpl.
  destruct (Z.ltb_spec (Z.of_nat (length pre)) (Z.of_nat (length pre + S (length rest))));
    [|lia].
  rewrite Nat2Z.id. replace (length pre) with (length pre + 0)%nat at 1 by lia.
  rewrite insert_app_r. reflexivity.
Qed.

Lemma length_loop_bytes (fuel : nat) (value : Z) : (length (loop_bytes fuel value) <= fuel)%nat.
Proof.
  revert value. induction fuel as [|fuel IH]; intros value; simpl; [lia|].
  destruct (0 <? value); simpl; [specialize (IH (Z.shiftr value 7))|]; lia.
Qed.

Lemma write_varint_loop_ok (fuel : nat) :
  forall (value fb : Z) (pre rest : list Z),
  (length (loop_bytes fuel value) <= length rest)%nat ->
  write_varint_loop fuel value fb (mkPbWriter (pre ++ rest) (Z.of_nat (length pre))) =
  Some (Ok tt, mkPbWriter (pre ++ loop_bytes fuel value ++ drop (length (loop_bytes fuel value)) rest)
                          (Z.of_nat (length pre) + Z.of_nat (length (loop_bytes fuel value)))).
Proof.
  induction fuel as [|fuel IH]; intros value fb pre rest Hl.
  - simpl. rewrite Z.add_0_r. reflexivity.
  - cbn [write_varint_loop loop_bytes] in *. destruct (0 <? value).
    + simpl in Hl. destruct rest as [|y rest]; [simpl in Hl; lia|].
      rewrite write_u8_at.
      replace (pre ++ Z.lor (Z.land value 127) 128 :: rest)
        with ((pre ++ [Z.lor (Z.land value 127) 128]) ++ rest) by (rewrite <- app_assoc; reflexivity).
      replace (Z.of_nat (length pre) + 1)
        with (Z.of_nat (length (pre ++ [Z.lor (Z.land value 127) 128]))) by (rewrite length_app; simpl; lia).
      rewrite IH by (simpl in Hl; lia).
      rewrite length_app, <- app_assoc. simpl. do 3 f_equal. lia.
    + simpl. rewrite Z.add_0_r. reflexivity.
Qed.

Lemma loop_bytes_last (fuel : nat) :
  forall value, 0 < value < 2 ^ (7 * Z.of_nat fuel) ->
  exists init last, loop_bytes fuel value = init ++ [last] /\
                    init ++ [Z.land last 127] = varint_encoding fuel value.
Proof.
  induction fuel as [|fuel IH]; intros value Hv; [simpl in Hv; lia|].
  cbn [loop_bytes varint_encoding].
  destruct (Z.ltb_spec 0 value); [|lia].
  assert (Hm : 0 <= Z.land value 127 < 128) by (rewrite land_127; apply Z.mod_pos_bound; lia).
  destruct (group_byte _ Hm) as (_ & _ & Hg).
  destruct (Z.ltb_spec value 128).
  - assert (Hs : Z.shiftr value 7 = 0).
    { rewrite Z.shiftr_div_pow2 by lia. apply Z.div_small. change (2 ^ 7) with 128. lia. }
    rewrite Hs. exists [], (Z.lor (Z.land value 127) 128). split.
    + destruct fuel; reflexivity.
    + simpl. rewrite Hg, land_127, Z.mod_small by lia. reflexivity.
  - assert (Hs : 0 < Z.shiftr value 7 < 2 ^ (7 * Z.of_nat fuel)).
    { rewrite Z.shiftr_div_pow2 by lia. change (2 ^ 7) with 128. split.
      - apply Z.div_str_pos. lia.
      - apply Z.div_lt_upper_bound; [lia|].
        replace (7 * Z.of_nat (S fuel)) with (7 + 7 * Z.of_nat fuel) in Hv by lia.
        rewrite Z.pow_add_r in Hv by lia. lia. }
    destruct (IH _ Hs) as (init & last & H1 & H2).
    exists (Z.lor (Z.land value 127) 128 :: init), last. rewrite H1, <- H2. auto.
Qed.

Lemma length_varint_encoding (fuel : nat) (value : Z) :
  (length (varint_encoding fuel value) <= fuel)%nat.
Proof.
  revert value. induction fuel as [|fuel IH]; intros value; simpl; [lia|].
  destruct (value <? 128); simpl; [|specialize (IH (Z.shiftr value 7))]; lia.
Qed.

(** [write_varint] with room for the encoding appends [varint_encoding 10 value]. *)
Lemma write_varint_ok (pre rest : list Z) (v : Z) :
  0 <= v < 2 ^ 64 -> (length (varint_encoding 10 v) <= length rest)%nat ->
  exists tail,
    write_varint v (mkPbWriter (pre ++ rest) (Z.of_nat (length pre))) =
    Some (Ok tt, mkPbWriter (pre ++ varint_encoding 10 v ++ tail)
                            (Z.of_nat (length pre) + Z.of_nat (length (varint_encoding 10 v)))).
Proof.
  intros Hv Hl. unfold write_varint. cbn [wpos].
  destruct (Z.eqb_spec v 0) as [->|Hv0].
  - destruct rest as [|y rest]; [simpl in Hl; lia|].
    exists rest. rewrite write_u8_at. reflexivity.
  - unfold bind.
    destruct (loop_bytes_last 10 v ltac:(simpl; lia)) as (init & last & H1 & H2).
    assert (Hlen : length (loop_bytes 10 v) = length (varint_encoding 10 v)).
    { rewrite H1, <- H2, !length_app. reflexivity. }
    rewrite write_varint_loop_ok by lia.
    rewrite H1, <- H2. exists (drop (length (init ++ [last])) rest).
    set (tail := drop (length (init ++ [last])) rest).
    unfold clear_last_msb; cbn [wpos wbuf].
    rewrite length_app; simpl length.
    destruct (Z.eqb_spec (Z.of_nat (length pre) + Z.of_nat (length init + 1)) 0); [lia|].
    replace (Z.to_nat (Z.of_nat (length pre) + Z.of_nat (length init + 1) - 1))
      with (length (pre ++ init)) by (rewrite length_app; lia).
    replace (pre ++ (init ++ [last]) ++ tail) with ((pre ++ init) ++ last :: tail)
      by (repeat rewrite <- app_assoc; reflexivity).
    rewrite list_lookup_middle by reflexivity.
    rewrite insert_app_r_alt by lia. rewrite Nat.sub_diag. simpl.
    rewrite length_app. simpl length.
    repeat rewrite <- app_assoc. reflexivity.
Qed.

Lemma write_u8_full (x : Z) (w : PbWriter) :
  Z.of_nat (length (wbuf w)) <= wpos w -> write_u8 x w = Some (Err BufferOverflow, w).
Proof.
  intros H. unfold write_u8.
  destruct (Z.ltb_spec (wpos w) (Z.of_nat (length (wbuf w)))); [lia|reflexivity].
Qed.

(** When the loop runs out of room it fails with [BufferOverflow] and
    restores the position; it only wrote at and after the cursor. *)
Lemma write_varint_loop_fail (fuel : nat) :
  forall (value fb : Z) (pre rest : list Z),
  (length rest < length (loop_bytes fuel value))%nat ->
  exists rest', length rest' = length rest /\
    write_varint_loop fuel value fb (mkPbWriter (pre ++ rest) (Z.of_nat (length pre))) =
    Some (Err BufferOverflow, mkPbWriter (pre ++ rest') fb).
Proof.
  induction fuel as [|fuel IH]; intros value fb pre rest Hl; [simpl in Hl; lia|].
  cbn [write_varint_loop loop_bytes] in *. destruct (0 <? value); [|simpl in Hl; lia].
  destruct rest as [|y rest].
  - exists []. split; [reflexivity|].
    rewrite write_u8_full by (simpl; rewrite app_nil_r; lia). reflexivity.
  - rewrite write_u8_at.
    replace (pre ++ Z.lor (Z.land value 127) 128 :: rest)
      with ((pre ++ [Z.lor (Z.land value 127) 128]) ++ rest) by (rewrite <- app_assoc; reflexivity).
    replace (Z.of_nat (length pre) + 1)
      with (Z.of_nat (length (pre ++ [Z.lor (Z.land value 127) 128]))) by (rewrite length_app; simpl; lia).
    simpl in Hl.
    destruct (IH (Z.shiftr value 7) fb (pre ++ [Z.lor (Z.land value 127) 128]) rest ltac:(lia))
      as (rest' & Hr & ->).
    exists (Z.lor (Z.land value 127) 128 :: rest'). split; [simpl; lia|].
    rewrite <- app_assoc. reflexivity.
Qed.

(** Every outcome of [write_varint] on a [u64]: success appends the
    encoding, failure is a [BufferOverflow] with the position restored,
    and it never panics. *)
Lemma write_varint_cases (pre rest : list Z) (v : Z) :
  0 <= v < 2 ^ 64 ->
  match write_varint v (mkPbWriter (pre ++ rest) (Z.of_nat (length pre))) with
  | Some (Ok _, w') =>
    exists tail, w' = mkPbWriter (pre ++ varint_encoding 10 v ++ tail)
                    (Z.of_nat (length pre) + Z.of_nat (length (varint_encoding 10 v)))
  | Some (Err e, w') =>
    e = BufferOverflow /\
    exists rest', length rest' = length rest /\ w' = mkPbWriter (pre ++ rest') (Z.of_nat (length pre))
  | None => False
  end.
Proof.
  intros Hv.
  destruct (le_lt_dec (length (varint_encoding 10 v)) (length rest)) as [Hl|Hl].
  - destruct (write_varint_ok pre rest v Hv Hl) as [tail ->]. eauto.
  - unfold write_varint. cbn [wpos].
    destruct (Z.eqb_spec v 0) as [->|Hv0].
    + destruct rest as [|y rest]; [|simpl in Hl; lia].
      rewrite write_u8_full by (simpl; rewrite app_nil_r; lia).
      split; [reflexivity|]. exists []. auto.
    + destruct (loop_bytes_last 10 v ltac:(simpl; lia)) as (init & last & H1 & H2).
      assert (Hlen : length (loop_bytes 10 v) = length (varint_encoding 10 v)).
      { rewrite H1, <- H2, !length_app. reflexivity. }
      unfold bind.
      destruct (write_varint_loop_fail 10 v (Z.of_nat (length pre)) pre rest ltac:(lia))
        as (rest' & Hr & ->).
      split; [reflexivity|]. eauto.
Qed.

Section VarintRoundtrip.
Variable oc : bool.

(** The decoding loop reads back [varint_encoding], from any 7-bit group
    position [k] on, as long as the value fits in 64 bits. *)
Lemma decode_varint_encoding (f : nat) :
  forall (v : Z) (k fuel : nat) (result : Z) (buf post : list Z) (p : Z),
  0 <= p -> drop (Z.to_nat p) buf = varint_encoding f v ++ post ->
  (1 <= f)%nat -> 0 <= v < 2 ^ (7 * Z.of_nat f) ->
  0 <= result < 2 ^ (7 * Z.of_nat k) ->
  result + v * 2 ^ (7 * Z.of_nat k) < 2 ^ 64 ->
  (k <= 9)%nat -> (10 - k < fuel)%nat ->
  next_varint_loop oc fuel result (7 * Z.of_nat k) (mkPbReader buf p) =
  Some (Ok (result + v * 2 ^ (7 * Z.of_nat k)),
        mkPbReader buf (p + Z.of_nat (length (varint_encoding f v)))).
Proof.
  induction f as [|f IH]; intros v k fuel result buf post p Hp Hd Hf Hv Hr Hs Hk Hfu;
    [lia|].
  destruct fuel as [|fuel]; [lia|].
  assert (Hpk : 0 < 2 ^ (7 * Z.of_nat k)) by (apply Z.pow_pos_nonneg; lia).
  cbn [varint_encoding] in Hd |- *.
  destruct (Z.ltb_spec v 128).
  - rewrite (varint_step oc fuel result _ buf post p v Hp Hd) by lia.
    cbv zeta. destruct (Z.ltb_spec v 128); [|lia].
    rewrite (Z.mod_small v 128), (Z.mod_small (v * _)) by nia. reflexivity.
  - assert (Hm : 0 <= Z.land v 127 < 128) by (rewrite land_127; apply Z.mod_pos_bound; lia).
    destruct (group_byte _ Hm) as (Hb1 & Hb2 & _).
    rewrite (varint_step oc fuel result _ buf _ p _ Hp Hd) by lia.
    cbv zeta. destruct (Z.ltb_spec (Z.lor (Z.land v 127) 128) 128); [lia|].
    rewrite Hb2, land_127.
    assert (Hdm : v = 128 * (v / 128) + v mod 128) by (apply Z.div_mod; lia).
    assert (Hmb : 0 <= v mod 128 < 128) by (apply Z.mod_pos_bound; lia).
    assert (Hq : 1 <= v / 128) by (apply Z.div_le_lower_bound; lia).
    assert (H7 : 2 ^ (7 * Z.of_nat (S k)) = 128 * 2 ^ (7 * Z.of_nat k)).
    { replace (7 * Z.of_nat (S k)) with (7 + 7 * Z.of_nat k) by lia.
      rewrite Z.pow_add_r by lia. reflexivity. }
    assert (Hk8 : (k <= 8)%nat).
    { destruct (Nat.eq_dec k 9%nat) as [->|]; [|lia].
      change (2 ^ (7 * Z.of_nat 9)) with (2 ^ 63) in Hs. lia. }
    assert (Hf1 : (1 <= f)%nat).
    { destruct f; [|lia]. simpl in Hv. lia. }
    rewrite (Z.mod_small (v mod 128 * _)) by nia.
    replace (7 * Z.of_nat k + 7) with (7 * Z.of_nat (S k)) by lia.
    assert (Hsh : Z.shiftr v 7 = v / 128) by (rewrite Z.shiftr_div_pow2 by lia; reflexivity).
    rewrite Hsh in Hd |- *.
    rewrite (IH (v / 128) (S k) fuel _ buf post (p + 1) ltac:(lia)
               (drop_succ buf (varint_encoding f (v / 128) ++ post) p _ Hp Hd) Hf1).
    + simpl length. f_equal. f_equal.
      * f_equal. rewrite H7. nia.
      * f_equal. lia.
    + split; [apply Z.div_pos; lia|].
      apply Z.div_lt_upper_bound; [lia|].
      replace (7 * Z.of_nat (S f)) with (7 + 7 * Z.of_nat f) in Hv by lia.
      rewrite Z.pow_add_r in Hv by lia. lia.
    + rewrite H7. nia.
    + rewrite H7. nia.
    + lia.
    + lia.
Qed.
End VarintRoundtrip.

(** C5: for every [u64] value [v], [write_varint] into a writer with at
    least ten free bytes succeeds, keeps the bytes committed before, and
    [next_varint] reads exactly [v] back from the bytes it appended,
    consuming all of them; [0], [127] and [128] are written as [00], [7F]
    and [80 01]. *)
Theorem varint_roundtrip (oc : bool) (w : PbWriter) (v : Z) :
  writer_wf w -> wpos w + 10 <= Z.of_nat (length (wbuf w)) -> 0 <= v < 2 ^ 64 ->
  (exists w', write_varint v w = Some (Ok tt, w') /\
     take (Z.to_nat (wpos w)) (as_bytes w') = as_bytes w /\
     let out := drop (Z.to_nat (wpos w)) (as_bytes w') in
     next_varint oc (PbReader_new out) = Some (Ok v, mkPbReader out (Z.of_nat (length out)))) /\
  run_w (write_varint 0) 10 = Some (Ok tt, [0]) /\
  run_w (write_varint 127) 10 = Some (Ok tt, [127]) /\
  run_w (write_varint 128) 10 = Some (Ok tt, [128; 1]).
Proof.
  intros Hwf Hcap Hv. split; [|repeat split; reflexivity].
  destruct w as [buf p]; unfold writer_wf in *; simpl in *.
  pose (pre := take (Z.to_nat p) buf); pose (rest := drop (Z.to_nat p) buf).
  assert (Hb : buf = pre ++ rest) by (symmetry; apply take_drop).
  assert (Hpl : p = Z.of_nat (length pre)) by (unfold pre; rewrite length_take; lia).
  assert (Hrl : (10 <= length rest)%nat) by (unfold rest; rewrite length_drop; lia).
  clearbody pre rest. subst buf p.
  destruct (write_varint_ok pre rest v Hv
              ltac:(pose proof (length_varint_encoding 10 v); lia)) as [tail Hw].
  eexists. split; [exact Hw|].
  unfold as_bytes; cbn [wpos wbuf]. rewrite Nat2Z.id.
  replace (Z.to_nat (Z.of_nat (length pre) + Z.of_nat (length (varint_encoding 10 v))))
    with (length (pre ++ varint_encoding 10 v)) by (rewrite length_app; lia).
  rewrite app_assoc, take_app_length, take_app_length, take_app_length, drop_app_length.
  split; [reflexivity|]. cbv zeta.
  unfold next_varint, PbReader_new.
  change (next_varint_loop oc 11 0 0 (mkPbReader (varint_encoding 10 v) 0)) with
    (next_varint_loop oc 11 0 (7 * Z.of_nat 0) (mkPbReader (varint_encoding 10 v) 0)).
  rewrite (decode_varint_encoding oc 10 v 0 11 0 (varint_encoding 10 v) [] 0);
    [|lia|rewrite app_nil_r; reflexivity|lia|simpl; lia|simpl; lia|simpl; lia|lia|lia].
  change (2 ^ (7 * Z.of_nat 0)) with 1. rewrite Z.mul_1_r, !Z.add_0_l. reflexivity.
Qed.

Lemma varint_roundtrip_witness :
  (writer_wf (PbWriter_new (repeat 0 10)) /\
   wpos (PbWriter_new (repeat 0 10)) + 10 <= Z.of_nat (length (wbuf (PbWriter_new (repeat 0 10)))) /\
   0 <= 300 < 2 ^ 64) /\
  exists w', write_varint 300 (PbWriter_new (repeat 0 10)) = Some (Ok tt, w') /\
     take 0 (as_bytes w') = as_bytes (PbWriter_new (repeat 0 10)) /\
     let out := drop 0 (as_bytes w') in
     next_varint true (PbReader_new out) = Some (Ok 300, mkPbReader out (Z.of_nat (length out))).
Proof.
  split; [unfold writer_wf; simpl; lia|].
  apply (varint_roundtrip true (PbWriter_new (repeat 0 10)) 300);
    [unfold writer_wf; simpl; lia|simpl; lia|lia].
Defined.

(** *** Failed writes *)

Lemma writer_split (w : PbWriter) :
  writer_wf w ->
  exists pre rest, w = mkPbWriter (pre ++ rest) (Z.of_nat (length pre)).
Proof.
  destruct w as [buf p]; unfold writer_wf; simpl; intros Hwf.
  exists (take (Z.to_nat p) buf), (drop (Z.to_nat p) buf).
  rewrite take_drop, length_take. f_equal. lia.
Qed.

Lemma as_bytes_split (pre rest : list Z) :
  as_bytes (mkPbWriter (pre ++ rest) (Z.of_nat (length pre))) = pre.
Proof. unfold as_bytes; simpl. rewrite Nat2Z.id, take_app_length. reflexivity. Qed.

Lemma write_bytes_err (val : list Z) (w w' : PbWriter) (e : Error) :
  write_bytes val w = Some (Err e, w') -> e = BufferOverflow /\ w' = w.
Proof.
  unfold write_bytes. destruct (_ <? _); intros H; inversion H; auto.
Qed.

Section FailedWrites.
Variable oc : bool.

Lemma encode_varint_field_fail (f v : Z) (pre rest : list Z) (e : Error) (w' : PbWriter) :
  0 <= v < 2 ^ 64 ->
  encode_varint_field oc f v (mkPbWriter (pre ++ rest) (Z.of_nat (length pre))) = Some (Err e, w') ->
  e = BufferOverflow /\
  (as_bytes w' = pre \/ as_bytes w' = pre ++ [Z.shiftl f 3 mod 2 ^ 8 + wire_type_u8 Varint]).
Proof.
  intros Hv. unfold encode_varint_field, bind. rewrite field_key_never_invalid.
  set (key := Z.shiftl f 3 mod 2 ^ 8 + wire_type_u8 Varint).
  destruct rest as [|y rest].
  - rewrite write_u8_full by (simpl; rewrite app_nil_r; lia).
    intros H; inversion H; subst. split; [reflexivity|left]. apply as_bytes_split.
  - rewrite write_u8_at.
    replace (pre ++ key :: rest) with ((pre ++ [key]) ++ rest)
      by (rewrite <- app_assoc; reflexivity).
    replace (Z.of_nat (length pre) + 1) with (Z.of_nat (length (pre ++ [key])))
      by (rewrite length_app; simpl; lia).
    pose proof (write_varint_cases (pre ++ [key]) rest v Hv) as Hc.
    destruct (write_varint v _) as [[[u|e'] w'']|]; [| |contradiction];
      intros H; inversion H; subst.
    destruct Hc as [-> (rest' & _ & ->)]. split; [reflexivity|right].
    apply as_bytes_split.
Qed.

Lemma encode_bytes_field_fail (f : Z) (val pre rest : list Z) (e : Error) (w' : PbWriter) :
  Z.of_nat (length val) < 2 ^ 64 ->
  encode_bytes_field oc f val (mkPbWriter (pre ++ rest) (Z.of_nat (length pre))) = Some (Err e, w') ->
  let key := Z.shiftl f 3 mod 2 ^ 8 + wire_type_u8 Bytes in
  e = BufferOverflow /\
  (as_bytes w' = pre \/ as_bytes w' = pre ++ [key] \/
   as_bytes w' = pre ++ key :: varint_encoding 10 (Z.of_nat (length val))).
Proof.
  intros Hv. unfold encode_bytes_field, bind. rewrite field_key_never_invalid.
  set (key := Z.shiftl f 3 mod 2 ^ 8 + wire_type_u8 Bytes).
  destruct rest as [|y rest].
  - rewrite write_u8_full by (simpl; rewrite app_nil_r; lia).
    intros H; inversion H; subst. split; [reflexivity|left]. apply as_bytes_split.
  - rewrite write_u8_at.
    replace (pre ++ key :: rest) with ((pre ++ [key]) ++ rest)
      by (rewrite <- app_assoc; reflexivity).
    replace (Z.of_nat (length pre) + 1) with (Z.of_nat (length (pre ++ [key])))
      by (rewrite length_app; simpl; lia).
    pose proof (write_varint_cases (pre ++ [key]) rest (Z.of_nat (length val))
                  ltac:(lia)) as Hc.
    destruct (write_varint _ _) as [[[u|e'] w'']|]; [| |contradiction].
    + destruct Hc as [tail ->]. intros H.
      destruct (write_bytes_err _ _ _ _ H) as [-> ->].
      split; [reflexivity|right; right].
      set (enc := varint_encoding 10 (Z.of_nat (length val))).
      replace ((pre ++ [key]) ++ enc ++ tail) with (((pre ++ [key]) ++ enc) ++ tail)
        by (rewrite app_assoc; reflexivity).
      replace (Z.of_nat (length (pre ++ [key])) + Z.of_nat (length enc))
        with (Z.of_nat (length ((pre ++ [key]) ++ enc))) by (rewrite (length_app (pre ++ [key])); lia).
      rewrite as_bytes_split, <- app_assoc. reflexivity.
    + intros H; inversion H; subst.
      destruct Hc as [-> (rest' & _ & ->)]. split; [reflexivity|right; left].
      apply as_bytes_split.
Qed.
End FailedWrites.

(** C3 (as corrected): a failed [write_varint] rolls its position back, so
    [as_bytes()] is what it was before the call; the field encoders do not
    roll back the bytes they wrote before the failing step: a failed
    [encode_varint_field] or [encode_svarint_field] leaves the previous
    prefix, possibly followed by the key byte, and a failed
    [encode_bytes_field] or [encode_string_field] leaves the previous
    prefix, possibly followed by the key byte, or by the key byte and the
    length varint.  Every such failure is a [BufferOverflow]. *)
Theorem failed_write_committed_prefix (oc : bool) (w w' : PbWriter) (f v s : Z)
    (val : list Z) (e : Error) :
  writer_wf w -> 0 <= v < 2 ^ 64 -> Z.of_nat (length val) < 2 ^ 64 ->
  let key := fun wt => Z.shiftl f 3 mod 2 ^ 8 + wire_type_u8 wt in
  (write_varint v w = Some (Err e, w') -> e = BufferOverflow /\ as_bytes w' = as_bytes w) /\
  (encode_varint_field oc f v w = Some (Err e, w') ->
   e = BufferOverflow /\
   (as_bytes w' = as_bytes w \/ as_bytes w' = as_bytes w ++ [key Varint])) /\
  (encode_svarint_field oc f s w = Some (Err e, w') ->
   e = BufferOverflow /\
   (as_bytes w' = as_bytes w \/ as_bytes w' = as_bytes w ++ [key Varint])) /\
  (encode_bytes_field oc f val w = Some (Err e, w') ->
   e = BufferOverflow /\
   (as_bytes w' = as_bytes w \/ as_bytes w' = as_bytes w ++ [key Bytes] \/
    as_bytes w' = as_bytes w ++ key Bytes :: varint_encoding 10 (Z.of_nat (length val)))) /\
  (encode_string_field oc f val w = Some (Err e, w') ->
   e = BufferOverflow /\
   (as_bytes w' = as_bytes w \/ as_bytes w' = as_bytes w ++ [key Bytes] \/
    as_bytes w' = as_bytes w ++ key Bytes :: varint_encoding 10 (Z.of_nat (length val)))).
Proof.
  intros Hwf Hv Hl key.
  destruct (writer_split w Hwf) as (pre & rest & ->). rewrite as_bytes_split.
  assert (Hs : 0 <= svarint_to_varint s < 2 ^ 64)
    by (unfold svarint_to_varint, wrap_u; apply Z.mod_pos_bound; lia).
  split; [|split; [|split; [|split]]].
  - pose proof (write_varint_cases pre rest v Hv) as Hc.
    destruct (write_varint _ _) as [[[u|e'] w'']|]; [| |contradiction];
      intros H; inversion H; subst.
    destruct Hc as [-> (rest' & _ & ->)]. split; [reflexivity|]. apply as_bytes_split.
  - apply encode_varint_field_fail. exact Hv.
  - apply encode_varint_field_fail. exact Hs.
  - apply encode_bytes_field_fail. exact Hl.
  - apply encode_bytes_field_fail. exact Hl.
Qed.

Lemma failed_write_committed_prefix_witness :
  (writer_wf (mkPbWriter [0; 0] 0) /\ 0 <= 300 < 2 ^ 64 /\ Z.of_nat (length [5; 6]) < 2 ^ 64) /\
  (encode_varint_field true 1 300 (mkPbWriter [0; 0] 0) =
     Some (Err BufferOverflow, mkPbWriter [8; 172] 1) ->
   BufferOverflow = BufferOverflow /\
   (as_bytes (mkPbWriter [8; 172] 1) = as_bytes (mkPbWriter [0; 0] 0) \/
    as_bytes (mkPbWriter [8; 172] 1) =
      as_bytes (mkPbWriter [0; 0] 0) ++ [Z.shiftl 1 3 mod 2 ^ 8 + wire_type_u8 Varint])).
Proof.
  split; [unfold writer_wf; simpl; lia|].
  apply (failed_write_committed_prefix true (mkPbWriter [0; 0] 0) (mkPbWriter [8; 172] 1)
           1 300 0 [5; 6] BufferOverflow); [unfold writer_wf; simpl; lia|lia|simpl; lia].
Defined.

(** C3 as stated fails: after [encode_varint_field(1, 300)] fails on a
    two-byte buffer, [as_bytes()] holds the key byte [0x08], though it was
    empty before the call. *)
Lemma failed_field_write_keeps_key :
  encode_varint_field true 1 300 (PbWriter_new [0; 0]) =
    Some (Err BufferOverflow, mkPbWriter [8; 172] 1) /\
  encode_varint_field false 1 300 (PbWriter_new [0; 0]) =
    Some (Err BufferOverflow, mkPbWriter [8; 172] 1) /\
  as_bytes (PbWriter_new [0; 0]) = [] /\
  as_bytes (mkPbWriter [8; 172] 1) = [8].
Proof. repeat split; reflexivity. Qed.

(** *** Reader progress *)

(** [r'] continues [r]: same buffer, position moved forward, still within
    the buffer. *)
Definition progress (r r' : PbReader) : Prop :=
  rbuf r' = rbuf r /\ rpos r <= rpos r' /\ rpos r' <= Z.of_nat (length (rbuf r)).

(** A reader method whose every returned state (value or error) continues
    the state it started from. *)
Definition advances {A} (m : M PbReader A) : Prop :=
  forall r res r', reader_wf r -> m r = Some (res, r') -> progress r r'.

(** A reader method that never reports [Eof]. *)
Definition no_eof {A} (m : M PbReader A) : Prop :=
  forall r r', m r <> Some (Err Eof, r').

Ltac solve_progress :=
  unfold progress, reader_wf in *; simpl in *; repeat split; try reflexivity; lia.

Lemma progress_wf (r r' : PbReader) : reader_wf r -> progress r r' -> reader_wf r'.
Proof. unfold reader_wf, progress. intros ? (-> & ? & ?). lia. Qed.

Lemma advances_ret {A} (a : A) : advances (ret a).
Proof. intros r res r' Hwf H. unfold ret in H. inversion H; subst. solve_progress. Qed.

Lemma advances_fail {A} (e : Error) : advances (A := A) (fail e).
Proof. intros r res r' Hwf H. unfold fail in H. inversion H; subst. solve_progress. Qed.

Lemma advances_panic {A} : advances (A := A) panic.
Proof. intros r res r' Hwf H. discriminate H. Qed.

Lemma advances_bind {A B} (m : M PbReader A) (k : A -> M PbReader B) :
  advances m -> (forall a, advances (k a)) -> advances (bind m k).
Proof.
  intros Hm Hk r res r' Hwf. unfold bind.
  destruct (m r) as [[[a|e] r1]|] eqn:E; intros H.
  - pose proof (Hm _ _ _ Hwf E) as P1.
    pose proof (Hk a _ _ _ (progress_wf _ _ Hwf P1) H) as P2.
    unfold progress in *. destruct P1 as (B1 & ? & ?), P2 as (B2 & ? & ?).
    rewrite B1 in *. split; [congruence|lia].
  - inversion H; subst. exact (Hm _ _ _ Hwf E).
  - discriminate H.
Qed.

Lemma no_eof_ret {A} (a : A) : no_eof (ret a).
Proof. intros r r' H. discriminate H. Qed.

Lemma no_eof_fail {A} (e : Error) : e <> Eof -> no_eof (A := A) (fail e).
Proof. intros He r r' H. unfold fail in H. inversion H. congruence. Qed.

Lemma no_eof_panic {A} : no_eof (A := A) panic.
Proof. intros r r' H. discriminate H. Qed.

Lemma no_eof_bind {A B} (m : M PbReader A) (k : A -> M PbReader B) :
  no_eof m -> (forall a, no_eof (k a)) -> no_eof (bind m k).
Proof.
  intros Hm Hk r r'. unfold bind.
  destruct (m r) as [[[a|e] r1]|] eqn:E; [apply Hk| |discriminate].
  intros H. inversion H; subst. exact (Hm _ _ E).
Qed.

Lemma advances_next_u8 (e : Error) : advances (ok_or next_u8 e).
Proof.
  intros r res r' Hwf. unfold ok_or, next_u8, has_next.
  destruct (Z.ltb_spec (rpos r) (Z.of_nat (length (rbuf r)))) as [Hl|Hl]; intros Heq;
    inversion Heq; subst; solve_progress.
Qed.

Lemma no_eof_next_u8 (e : Error) : e <> Eof -> no_eof (ok_or next_u8 e).
Proof.
  intros He r r'. unfold ok_or. destruct (next_u8 r) as [[b|] r1]; intros H;
    inversion H; congruence.
Qed.

Create HintDb reader.
#[local] Hint Resolve advances_ret advances_fail advances_panic advances_bind
  advances_next_u8 no_eof_ret no_eof_fail no_eof_panic no_eof_bind no_eof_next_u8 : reader.

Lemma advances_next_fixed (n : Z) : 0 <= n -> advances (next_fixed n).
Proof.
  intros Hn r res r' Hwf. unfold next_fixed.
  destruct (Z.ltb_spec (Z.of_nat (length (rbuf r))) (rpos r + n)) as [Hl|Hl]; intros Heq;
    inversion Heq; subst; solve_progress.
Qed.

Lemma no_eof_next_fixed (n : Z) : no_eof (next_fixed n).
Proof.
  intros r r'. unfold next_fixed. destruct (_ <? _); intros H; inversion H; congruence.
Qed.

Section ReaderProgress.
Variable oc : bool.

Lemma advances_next_varint_loop (fuel : nat) :
  forall result bitpos, advances (next_varint_loop oc fuel result bitpos).
Proof.
  induction fuel as [|fuel IH]; intros result bitpos; cbn [next_varint_loop];
    [auto with reader|].
  apply advances_bind; [auto with reader|]. intros b.
  destruct (checked_shl 64 (Z.land b 127) bitpos) as [tmp|]; [|auto with reader].
  destruct (add_u oc 64 result tmp) as [result'|]; [|auto with reader].
  destruct (Z.land b 128 =? 0); auto with reader.
Qed.

Lemma no_eof_next_varint_loop (fuel : nat) :
  forall result bitpos, no_eof (next_varint_loop oc fuel result bitpos).
Proof.
  induction fuel as [|fuel IH]; intros result bitpos; cbn [next_varint_loop].
  - apply no_eof_fail. discriminate.
  - apply no_eof_bind; [apply no_eof_next_u8; discriminate|]. intros b.
    destruct (checked_shl 64 (Z.land b 127) bitpos) as [tmp|];
      [|apply no_eof_fail; discriminate].
    destruct (add_u oc 64 result tmp) as [result'|]; [|auto with reader].
    destruct (Z.land b 128 =? 0); auto with reader.
Qed.

Lemma advances_next_varint : advances (next_varint oc).
Proof. apply advances_next_varint_loop. Qed.

(** The continuation of [next_bytes] after the length varint. *)
Lemma advances_next_bytes : advances (next_bytes oc).
Proof.
  unfold next_bytes. apply advances_bind; [apply advances_next_varint|].
  intros len r res r' Hwf.
  destruct (add_u oc 64 (rpos r) len) as [stop|]; [|discriminate].
  destruct (Z.ltb_spec (Z.of_nat (length (rbuf r))) stop) as [H1|H1].
  - intros Heq; inversion Heq; subst. solve_progress.
  - unfold slice. destruct (Z.ltb_spec stop (rpos r)) as [H2|H2]; [discriminate|].
    destruct (Z.ltb_spec (Z.of_nat (length (rbuf r))) stop) as [H3|H3]; [lia|].
    intros Heq; inversion Heq; subst. solve_progress.
Qed.

Lemma no_eof_next_bytes : no_eof (next_bytes oc).
Proof.
  unfold next_bytes. apply no_eof_bind; [apply no_eof_next_varint_loop|].
  intros len r r'.
  destruct (add_u oc 64 (rpos r) len) as [stop|]; [|discriminate].
  destruct (_ <? stop); [intros Heq; inversion Heq|].
  destruct (slice _ _ _); discriminate.
Qed.

#[local] Hint Resolve advances_next_varint advances_next_bytes no_eof_next_bytes
  no_eof_next_varint_loop advances_next_fixed no_eof_next_fixed : reader.

Lemma advances_next_key : advances next_key.
Proof.
  unfold next_key. apply advances_bind; [auto with reader|].
  intros key r res r' Hwf Heq. inversion Heq; subst. solve_progress.
Qed.

Lemma advances_next_svarint : advances (next_svarint oc).
Proof.
  unfold next_svarint. apply advances_bind; [auto with reader|].
  intros val. destruct (varint_to_svarint oc val); auto with reader.
Qed.

Lemma no_eof_next_svarint : no_eof (next_svarint oc).
Proof.
  unfold next_svarint. apply no_eof_bind; [apply no_eof_next_varint_loop|].
  intros val. destruct (varint_to_svarint oc val); auto with reader.
Qed.

Lemma advances_next_string : advances (next_string oc).
Proof.
  unfold next_string. apply advances_bind; [auto with reader|].
  intros raw. destruct (utf8_valid raw); auto with reader.
Qed.

Lemma no_eof_next_string : no_eof (next_string oc).
Proof.
  unfold next_string. apply no_eof_bind; [auto with reader|].
  intros raw. destruct (utf8_valid raw); [auto with reader|apply no_eof_fail; discriminate].
Qed.

Lemma advances_next_embedded_message : advances (next_embedded_message oc).
Proof. unfold next_embedded_message. auto with reader. Qed.

Lemma no_eof_next_embedded_message : no_eof (next_embedded_message oc).
Proof. unfold next_embedded_message. auto with reader. Qed.

Lemma advances_skip_next_field : advances (skip_next_field oc).
Proof.
  unfold skip_next_field. apply advances_bind; [apply advances_next_key|].
  intros [fnum wt]; destruct wt; simpl; unfold next_fixed32, next_fixed64;
    apply advances_bind; auto with reader; apply advances_next_fixed; lia.
Qed.
End ReaderProgress.

Section ReaderFailures.
Variable oc : bool.

(** Where [next_varint] stops on an error: [UnexpectedEof] after
    consuming the rest of the buffer, [VarintOverflow] after consuming one
    byte per remaining iteration (eleven in all). *)
Lemma next_varint_loop_err (fuel k : nat) :
  forall (result : Z) (r r' : PbReader) (e : Error),
  reader_wf r -> (k + fuel = 11)%nat ->
  next_varint_loop oc fuel result (7 * Z.of_nat k) r = Some (Err e, r') ->
  rbuf r' = rbuf r /\
  ((e = UnexpectedEof /\ rpos r' = Z.of_nat (length (rbuf r))) \/
   (e = VarintOverflow /\ rpos r' = rpos r + Z.of_nat fuel)).
Proof.
  revert k. induction fuel as [|fuel IH]; intros k result r r' e Hwf Hk.
  - cbn [next_varint_loop]. unfold fail. intros H; inversion H; subst.
    split; [reflexivity|right]. split; [reflexivity|lia].
  - cbn [next_varint_loop]. unfold bind at 1, ok_or, next_u8, has_next.
    destruct (Z.ltb_spec (rpos r) (Z.of_nat (length (rbuf r)))) as [Hl|Hl].
    + set (r1 := mkPbReader (rbuf r) (rpos r + 1)).
      assert (Hwf1 : reader_wf r1) by (unfold reader_wf in *; simpl; lia).
      unfold checked_shl.
      destruct (Z.ltb_spec (7 * Z.of_nat k) 64) as [Hs|Hs].
      * destruct (add_u oc 64 result _) as [result'|]; [|discriminate].
        destruct (_ =? 0); [unfold ret; discriminate|].
        replace (7 * Z.of_nat k + 7) with (7 * Z.of_nat (S k)) by lia.
        intros H. destruct (IH (S k) result' r1 r' e Hwf1 ltac:(lia) H) as [Hb Hc].
        subst r1; simpl in Hb, Hc. split; [exact Hb|].
        destruct Hc as [[-> Hc]|[-> Hc]]; [left|right]; split; auto; lia.
      * unfold fail. intros H; inversion H; subst. split; [reflexivity|right].
        split; [reflexivity|]. subst r1. simpl. lia.
    + intros H; inversion H; subst. split; [reflexivity|left].
      unfold reader_wf in Hwf. split; [reflexivity|lia].
Qed.

(** A successful [next_varint] consumes at least one byte. *)
Lemma next_varint_ok_consumes (r r' : PbReader) (v : Z) :
  reader_wf r -> next_varint oc r = Some (Ok v, r') -> rpos r < rpos r'.
Proof.
  intros Hwf. unfold next_varint. cbn [next_varint_loop].
  unfold bind at 1, ok_or, next_u8, has_next.
  destruct (Z.ltb_spec (rpos r) (Z.of_nat (length (rbuf r)))) as [Hl|Hl];
    [|discriminate].
  set (r1 := mkPbReader (rbuf r) (rpos r + 1)).
  assert (Hwf1 : reader_wf r1) by (unfold reader_wf in *; simpl; lia).
  intros H.
  assert (Hk : advances (fun s =>
    match checked_shl 64 (Z.land (cur_byte r) 127) 0 with
    | Some tmp =>
        match add_u oc 64 0 tmp with
        | Some result' =>
            if Z.land (cur_byte r) 128 =? 0 then ret result'
            else next_varint_loop oc 10 result' (0 + 7)
        | None => panic
        end
    | None => fail VarintOverflow
    end s)).
  { destruct (checked_shl 64 _ 0) as [tmp|]; [|apply advances_fail].
    destruct (add_u oc 64 0 tmp) as [result'|]; [|apply advances_panic].
    destruct (_ =? 0); [apply advances_ret|apply advances_next_varint_loop]. }
  destruct (Hk r1 _ r' Hwf1 H) as (_ & Hp & _). simpl in Hp. lia.
Qed.

(** [next_bytes] failing on a declared length beyond the buffer keeps the
    position after the length varint. *)
Lemma next_bytes_unexpected_eof_state (r r1 r' : PbReader) (len : Z) :
  next_varint oc r = Some (Ok len, r1) ->
  next_bytes oc r = Some (Err UnexpectedEof, r') -> r' = r1.
Proof.
  intros Hv. unfold next_bytes, bind at 1. rewrite Hv.
  destruct (add_u oc 64 (rpos r1) len) as [stop|]; [|discriminate].
  destruct (_ <? stop); [intros H; inversion H; reflexivity|].
  destruct (slice _ _ _); discriminate.
Qed.
End ReaderFailures.

(** C10: reader failures are not rolled back.  When [next_bytes] fails with
    [UnexpectedEof] after reading its length varint, the position stays
    after that varint, strictly beyond where it was.  Every failure stops
    right after the bytes read until then: [next_key] fails with [Eof]
    without moving, or with [InvalidWireType] after the key byte;
    [next_fixed32] and [next_fixed64] fail without moving; [next_varint]
    fails with [UnexpectedEof] at the end of the buffer or with
    [VarintOverflow] eleven bytes on.  Every reader method, on success or
    failure, keeps the buffer and leaves the position between where it
    was and the buffer's end. *)
Theorem reader_failures_not_rolled_back (oc : bool) (r r' r1 : PbReader) (len : Z) (e : Error) :
  reader_wf r ->
  (next_varint oc r = Some (Ok len, r1) ->
   next_bytes oc r = Some (Err UnexpectedEof, r') -> r' = r1 /\ rpos r < rpos r') /\
  (next_key r = Some (Err e, r') ->
   (e = Eof /\ r' = r) \/ (exists b, e = InvalidWireType b /\ r' = mkPbReader (rbuf r) (rpos r + 1))) /\
  (next_fixed32 r = Some (Err e, r') -> e = UnexpectedEof /\ r' = r) /\
  (next_fixed64 r = Some (Err e, r') -> e = UnexpectedEof /\ r' = r) /\
  (next_varint oc r = Some (Err e, r') ->
   rbuf r' = rbuf r /\
   ((e = UnexpectedEof /\ rpos r' = Z.of_nat (length (rbuf r))) \/
    (e = VarintOverflow /\ rpos r' = rpos r + 11))) /\
  (forall res, next_key r = Some (res, r') -> progress r r') /\
  (forall res, next_varint oc r = Some (res, r') -> progress r r') /\
  (forall res, next_svarint oc r = Some (res, r') -> progress r r') /\
  (forall res, next_fixed32 r = Some (res, r') -> progress r r') /\
  (forall res, next_fixed64 r = Some (res, r') -> progress r r') /\
  (forall res, next_bytes oc r = Some (res, r') -> progress r r') /\
  (forall res, next_string oc r = Some (res, r') -> progress r r') /\
  (forall res, next_embedded_message oc r = Some (res, r') -> progress r r') /\
  (forall res, skip_next_field oc r = Some (res, r') -> progress r r').
Proof.
  intros Hwf. split; [|split; [|split; [|split; [|split]]]].
  - intros Hv Hb. pose proof (next_bytes_unexpected_eof_state oc r r1 r' len Hv Hb) as ->.
    split; [reflexivity|]. exact (next_varint_ok_consumes oc r r1 len Hwf Hv).
  - unfold next_key, bind, ok_or, next_u8.
    destruct (has_next r).
    + unfold decode_key. destruct (wire_type_from_u8 _); intros H; inversion H; subst.
      right. eexists. split; reflexivity.
    + intros H; inversion H; subst. left. split; reflexivity.
  - unfold next_fixed32, next_fixed. destruct (_ <? _); intros H; inversion H; subst; auto.
  - unfold next_fixed64, next_fixed. destruct (_ <? _); intros H; inversion H; subst; auto.
  - intros H. unfold next_varint in H.
    change 0 with (7 * Z.of_nat 0) in H at 2.
    exact (next_varint_loop_err oc 11 0 0 r r' e Hwf eq_refl H).
  - repeat match goal with |- _ /\ _ => split end; intros res0 H.
    + exact (advances_next_key r res0 r' Hwf H).
    + exact (advances_next_varint oc r res0 r' Hwf H).
    + exact (advances_next_svarint oc r res0 r' Hwf H).
    + exact (advances_next_fixed 4 ltac:(lia) r res0 r' Hwf H).
    + exact (advances_next_fixed 8 ltac:(lia) r res0 r' Hwf H).
    + exact (advances_next_bytes oc r res0 r' Hwf H).
    + exact (advances_next_string oc r res0 r' Hwf H).
    + exact (advances_next_embedded_message oc r res0 r' Hwf H).
    + exact (advances_skip_next_field oc r res0 r' Hwf H).
Qed.

Lemma reader_failures_not_rolled_back_witness :
  reader_wf (PbReader_new [3; 1; 2]) /\
  next_varint false (PbReader_new [3; 1; 2]) = Some (Ok 3, mkPbReader [3; 1; 2] 1) /\
  next_bytes false (PbReader_new [3; 1; 2]) = Some (Err UnexpectedEof, mkPbReader [3; 1; 2] 1) /\
  rpos (PbReader_new [3; 1; 2]) < rpos (mkPbReader [3; 1; 2] 1).
Proof.
  assert (Hwf : reader_wf (PbReader_new [3; 1; 2])) by (unfold reader_wf; simpl; lia).
  assert (Hv : next_varint false (PbReader_new [3; 1; 2]) = Some (Ok 3, mkPbReader [3; 1; 2] 1))
    by reflexivity.
  assert (Hb : next_bytes false (PbReader_new [3; 1; 2]) =
               Some (Err UnexpectedEof, mkPbReader [3; 1; 2] 1)) by reflexivity.
  refine (conj Hwf (conj Hv (conj Hb _))).
  exact (proj2 (proj1 (reader_failures_not_rolled_back false (PbReader_new [3; 1; 2])
    (mkPbReader [3; 1; 2] 1) (mkPbReader [3; 1; 2] 1) 3 UnexpectedEof Hwf) Hv Hb)).
Defined.

(** [decode_key] reports only [InvalidWireType]. *)
Lemma decode_key_not_eof (key : Z) : decode_key key <> Err Eof.
Proof. unfold decode_key. destruct (wire_type_from_u8 _); discriminate. Qed.

Lemma next_key_eof_iff (r : PbReader) :
  (exists r', next_key r = Some (Err Eof, r')) <-> Z.of_nat (length (rbuf r)) <= rpos r.
Proof.
  unfold next_key, bind, ok_or, next_u8, has_next.
  destruct (Z.ltb_spec (rpos r) (Z.of_nat (length (rbuf r)))) as [Hl|Hl]; split.
  - intros [r' H]. inversion H as [Hd]. exfalso. exact (decode_key_not_eof _ Hd).
  - lia.
  - intros _. lia.
  - intros _. exists r. reflexivity.
Qed.

Lemma peek_next_key_eof_iff (r : PbReader) :
  peek_next_key r = Err Eof <-> Z.of_nat (length (rbuf r)) <= rpos r.
Proof.
  unfold peek_next_key, peek_next_u8, has_next.
  destruct (Z.ltb_spec (rpos r) (Z.of_nat (length (rbuf r)))) as [Hl|Hl]; split.
  - intros Hd. exfalso. exact (decode_key_not_eof _ Hd).
  - lia.
  - intros _. lia.
  - intros _. reflexivity.
Qed.

(** A varint of 0xFF x9, 0x01: the length 2^64-1. *)
Definition huge_length_prefix : list Z := repeat 255 9 ++ [1].

(** C8: [next_key] and [peek_next_key] report [Eof] exactly when no byte
    remains, and no payload read ever reports [Eof]: truncated varints,
    fixed32 and fixed64 values and length-delimited payloads report
    [UnexpectedEof].  But a length-delimited read whose declared length is
    near 2^64 panics, in either build profile, instead of reporting
    [UnexpectedEof]. *)
Theorem underrun_reports_unexpected_eof_except_huge_length (oc : bool) :
  (forall r, (exists r', next_key r = Some (Err Eof, r')) <->
             Z.of_nat (length (rbuf r)) <= rpos r) /\
  (forall r, peek_next_key r = Err Eof <-> Z.of_nat (length (rbuf r)) <= rpos r) /\
  (forall r r', next_varint oc r <> Some (Err Eof, r')) /\
  (forall r r', next_svarint oc r <> Some (Err Eof, r')) /\
  (forall r r', next_fixed32 r <> Some (Err Eof, r')) /\
  (forall r r', next_fixed64 r <> Some (Err Eof, r')) /\
  (forall r r', next_bytes oc r <> Some (Err Eof, r')) /\
  (forall r r', next_string oc r <> Some (Err Eof, r')) /\
  (forall r r', next_embedded_message oc r <> Some (Err Eof, r')) /\
  next_varint oc (PbReader_new [128]) = Some (Err UnexpectedEof, mkPbReader [128] 1) /\
  next_fixed32 (PbReader_new [1; 2; 3]) = Some (Err UnexpectedEof, PbReader_new [1; 2; 3]) /\
  next_fixed64 (PbReader_new [1; 2; 3; 4; 5; 6; 7]) =
    Some (Err UnexpectedEof, PbReader_new [1; 2; 3; 4; 5; 6; 7]) /\
  next_bytes oc (PbReader_new [3; 1; 2]) = Some (Err UnexpectedEof, mkPbReader [3; 1; 2] 1) /\
  next_bytes oc (PbReader_new huge_length_prefix) = None.
Proof.
  split; [exact next_key_eof_iff|].
  split; [exact peek_next_key_eof_iff|].
  split; [apply no_eof_next_varint_loop|].
  split; [apply no_eof_next_svarint|].
  split; [apply no_eof_next_fixed|].
  split; [apply no_eof_next_fixed|].
  split; [apply no_eof_next_bytes|].
  split; [apply no_eof_next_string|].
  split; [apply no_eof_next_embedded_message|].
  destruct oc; vm_compute; repeat split; reflexivity.
Qed.

(** ** Further properties of the reader and the writer *)

(** *** The writer invariant *)

(** A writer method keeps [0 <= pos <= buf.len()] and never changes the
    length of the buffer. *)
Definition keeps_wf {A} (m : M PbWriter A) : Prop :=
  forall w res w', writer_wf w -> m w = Some (res, w') ->
  writer_wf w' /\ length (wbuf w') = length (wbuf w).

Lemma keeps_wf_ret {A} (a : A) : keeps_wf (ret a).
Proof. intros w res w' Hwf H. unfold ret in H. inversion H; subst. auto. Qed.

Lemma keeps_wf_fail {A} (e : Error) : keeps_wf (A := A) (fail e).
Proof. intros w res w' Hwf H. unfold fail in H. inversion H; subst. auto. Qed.

Lemma keeps_wf_panic {A} : keeps_wf (A := A) panic.
Proof. intros w res w' Hwf H. discriminate. Qed.

Lemma keeps_wf_bind {A B} (m : M PbWriter A) (k : A -> M PbWriter B) :
  keeps_wf m -> (forall a, keeps_wf (k a)) -> keeps_wf (bind m k).
Proof.
  intros Hm Hk w res w' Hwf. unfold bind.
  destruct (m w) as [[[a|e] w1]|] eqn:E; [| |discriminate].
  - intros H. destruct (Hm w _ w1 Hwf E) as [Hwf1 Hl1].
    destruct (Hk a w1 res w' Hwf1 H) as [Hwf2 Hl2]. split; [exact Hwf2|congruence].
  - intros H; inversion H; subst. exact (Hm w _ w' Hwf E).
Qed.

Lemma keeps_wf_write_u8 (x : Z) : keeps_wf (write_u8 x).
Proof.
  intros w res w' Hwf. unfold write_u8, writer_wf in *.
  destruct (Z.ltb_spec (wpos w) (Z.of_nat (length (wbuf w)))) as [Hl|Hl];
    intros H; inversion H; subst; simpl; rewrite ?length_insert; auto; lia.
Qed.

Lemma keeps_wf_write_bytes (val : list Z) : keeps_wf (write_bytes val).
Proof.
  intros w res w' Hwf. unfold write_bytes, writer_wf in *.
  destruct (Z.ltb_spec (wpos w + Z.of_nat (length val)) (Z.of_nat (length (wbuf w)))) as [Hl|Hl];
    intros H; inversion H; subst; simpl; [|auto].
  assert (Hlen : length (take (Z.to_nat (wpos w)) (wbuf w) ++ val ++
                         drop (Z.to_nat (wpos w + Z.of_nat (length val))) (wbuf w)) =
                 length (wbuf w)).
  { rewrite !length_app, length_take, length_drop. lia. }
  rewrite Hlen. split; [lia|reflexivity].
Qed.

Lemma keeps_wf_clear_last_msb : keeps_wf clear_last_msb.
Proof.
  intros w res w' Hwf. unfold clear_last_msb, writer_wf in *.
  destruct (wpos w =? 0); [discriminate|].
  destruct (wbuf w !! _); [|discriminate].
  intros H; inversion H; subst; simpl. rewrite length_insert. auto.
Qed.

(** The loop restores [fallback_pos], which is in range when it is the
    position of a writer over a buffer of the same length. *)
Lemma write_varint_loop_wf (fuel : nat) :
  forall value fb w res w', writer_wf w -> 0 <= fb <= Z.of_nat (length (wbuf w)) ->
  write_varint_loop fuel value fb w = Some (res, w') ->
  writer_wf w' /\ length (wbuf w') = length (wbuf w).
Proof.
  induction fuel as [|fuel IH]; intros value fb w res w' Hwf Hfb; cbn [write_varint_loop].
  - apply keeps_wf_ret. exact Hwf.
  - destruct (0 <? value); [|apply keeps_wf_ret; exact Hwf].
    destruct (write_u8 _ w) as [[[u|e] w1]|] eqn:E; [| |discriminate].
    + destruct (keeps_wf_write_u8 _ w _ w1 Hwf E) as [Hwf1 Hl1].
      intros H. destruct (IH _ fb w1 res w' Hwf1 ltac:(lia) H) as [Hwf2 Hl2].
      split; [exact Hwf2|congruence].
    + destruct (keeps_wf_write_u8 _ w _ w1 Hwf E) as [Hwf1 Hl1].
      intros H; inversion H; subst. unfold writer_wf; simpl. split; [lia|exact Hl1].
Qed.

Lemma keeps_wf_write_varint (v : Z) : keeps_wf (write_varint v).
Proof.
  intros w res w' Hwf. unfold write_varint.
  destruct (v =? 0); [apply keeps_wf_write_u8; exact Hwf|].
  unfold bind at 1.
  destruct (write_varint_loop 10 v (wpos w) w) as [[[u|e] w1]|] eqn:E; [| |discriminate].
  - destruct (write_varint_loop_wf 10 v (wpos w) w _ w1 Hwf Hwf E) as [Hwf1 Hl1].
    intros H. destruct (keeps_wf_clear_last_msb w1 res w' Hwf1 H) as [Hwf2 Hl2].
    split; [exact Hwf2|congruence].
  - intros H; inversion H; subst. exact (write_varint_loop_wf 10 v (wpos w) w _ w' Hwf Hwf E).
Qed.

Create HintDb writer.
#[local] Hint Resolve keeps_wf_ret keeps_wf_fail keeps_wf_panic keeps_wf_bind
  keeps_wf_write_u8 keeps_wf_write_bytes keeps_wf_write_varint : writer.

Lemma keeps_wf_field_key (oc : bool) (f : Z) (wt : WireType) : keeps_wf (field_key oc f wt).
Proof.
  unfold field_key. destruct (checked_shl 8 f 3); [|auto with writer].
  destruct (add_u oc 8 _ _); auto with writer.
Qed.

#[local] Hint Resolve keeps_wf_field_key : writer.

(** Every writer method keeps [0 <= pos <= buf.len()], on success and on
    failure, so [as_bytes()] ([&buf[..pos]]) never panics, and the buffer
    keeps its length. *)
Theorem writer_methods_keep_wf (oc : bool) (w w' : PbWriter) (f v : Z) (val : list Z)
    (res : result unit) :
  writer_wf w ->
  (write_varint v w = Some (res, w') ->
   writer_wf w' /\ length (wbuf w') = length (wbuf w)) /\
  (encode_varint_field oc f v w = Some (res, w') ->
   writer_wf w' /\ length (wbuf w') = length (wbuf w)) /\
  (encode_svarint_field oc f v w = Some (res, w') ->
   writer_wf w' /\ length (wbuf w') = length (wbuf w)) /\
  (encode_bytes_field oc f val w = Some (res, w') ->
   writer_wf w' /\ length (wbuf w') = length (wbuf w)) /\
  (encode_string_field oc f val w = Some (res, w') ->
   writer_wf w' /\ length (wbuf w') = length (wbuf w)).
Proof.
  intros Hwf.
  assert (Hv : forall f v, keeps_wf (encode_varint_field oc f v))
    by (intros; unfold encode_varint_field; auto with writer).
  assert (Hb : forall f val, keeps_wf (encode_bytes_field oc f val))
    by (intros; unfold encode_bytes_field; auto 6 with writer).
  split; [|split; [|split; [|split]]]; intros H.
  - exact (keeps_wf_write_varint v w res w' Hwf H).
  - exact (Hv f v w res w' Hwf H).
  - exact (Hv f (svarint_to_varint v) w res w' Hwf H).
  - exact (Hb f val w res w' Hwf H).
  - exact (Hb f val w res w' Hwf H).
Qed.

Lemma writer_methods_keep_wf_witness :
  writer_wf (PbWriter_new [0; 0]) /\
  (encode_varint_field false 1 300 (PbWriter_new [0; 0]) = Some (Err BufferOverflow, mkPbWriter [8; 172] 1) ->
   writer_wf (mkPbWriter [8; 172] 1) /\
   length (wbuf (mkPbWriter [8; 172] 1)) = length (wbuf (PbWriter_new [0; 0]))).
Proof.
  assert (Hwf : writer_wf (PbWriter_new [0; 0])) by (unfold writer_wf; simpl; lia).
  split; [exact Hwf|].
  exact (proj1 (proj2 (writer_methods_keep_wf false (PbWriter_new [0; 0]) (mkPbWriter [8; 172] 1)
    1 300 [] (Err BufferOverflow) Hwf))).
Defined.

(** *** Field round trips *)

Lemma field_key_value (f : Z) (wt : WireType) :
  0 <= f < 32 -> Z.shiftl f 3 mod 2 ^ 8 + wire_type_u8 wt = 8 * f + wire_type_u8 wt.
Proof.
  intros Hf. rewrite Z.shiftl_mul_pow2 by lia. change (2 ^ 3) with 8.
  rewrite Z.mod_small by lia. lia.
Qed.

Lemma decode_key_field (f : Z) (wt : WireType) :
  0 <= f < 32 -> decode_key (8 * f + wire_type_u8 wt) = Ok (f, wt).
Proof.
  intros Hf. unfold decode_key.
  assert (Hl : Z.land (8 * f + wire_type_u8 wt) 7 = wire_type_u8 wt).
  { change 7 with (Z.ones 3). rewrite Z.land_ones by lia. change (2 ^ 3) with 8.
    rewrite Z.add_comm, Z.mul_comm, Z.mod_add by lia.
    apply Z.mod_small. destruct wt; simpl; lia. }
  assert (Hs : Z.shiftr (8 * f + wire_type_u8 wt) 3 = f).
  { rewrite Z.shiftr_div_pow2 by lia. change (2 ^ 3) with 8.
    rewrite Z.add_comm, Z.mul_comm, Z.div_add by lia.
    rewrite Z.div_small by (destruct wt; simpl; lia). lia. }
  rewrite Hl, Hs. destruct wt; reflexivity.
Qed.

Lemma next_key_field (buf post : list Z) (p f : Z) (wt : WireType) :
  0 <= p -> 0 <= f < 32 -> drop (Z.to_nat p) buf = (8 * f + wire_type_u8 wt) :: post ->
  next_key (mkPbReader buf p) = Some (Ok (f, wt), mkPbReader buf (p + 1)).
Proof.
  intros Hp Hf Hd. unfold next_key, bind, ok_or.
  rewrite (next_u8_drop buf post p _ Hp Hd), decode_key_field by exact Hf. reflexivity.
Qed.

Lemma next_varint_encoding (oc : bool) (buf post : list Z) (p v : Z) :
  0 <= p -> 0 <= v < 2 ^ 64 -> drop (Z.to_nat p) buf = varint_encoding 10 v ++ post ->
  next_varint oc (mkPbReader buf p) =
  Some (Ok v, mkPbReader buf (p + Z.of_nat (length (varint_encoding 10 v)))).
Proof.
  intros Hp Hv Hd. unfold next_varint.
  change (next_varint_loop oc 11 0 0 (mkPbReader buf p)) with
    (next_varint_loop oc 11 0 (7 * Z.of_nat 0) (mkPbReader buf p)).
  rewrite (decode_varint_encoding oc 10 v 0 11 0 buf post p);
    [|lia|exact Hd|lia|simpl; lia|simpl; lia|simpl; lia|lia|lia].
  change (2 ^ (7 * Z.of_nat 0)) with 1. rewrite Z.mul_1_r, Z.add_0_l. reflexivity.
Qed.

Lemma add_u_small (oc : bool) (w a b : Z) :
  0 <= a -> 0 <= b -> a + b < 2 ^ w -> add_u oc w a b = Some (a + b).
Proof.
  intros Ha Hb Hw. unfold add_u, wrap_u. destruct oc.
  - destruct (Z.ltb_spec (a + b) (2 ^ w)); [reflexivity|lia].
  - rewrite Z.mod_small by lia. reflexivity.
Qed.

Lemma drop_length_le (buf l : list Z) (p : Z) :
  0 <= p -> (1 <= length l)%nat -> drop (Z.to_nat p) buf = l ->
  p + Z.of_nat (length l) <= Z.of_nat (length buf).
Proof.
  intros Hp Hl1 Hd. assert (Hl : length (drop (Z.to_nat p) buf) = length l) by (rewrite Hd; reflexivity).
  rewrite length_drop in Hl. lia.
Qed.

Lemma varint_encoding_nonempty (v : Z) : (1 <= length (varint_encoding 10 v))%nat.
Proof.
  change (varint_encoding 10 v) with
    (if v <? 128 then [v] else Z.lor (Z.land v 127) 128 :: varint_encoding 9 (Z.shiftr v 7)).
  destruct (v <? 128); cbn [length]; lia.
Qed.

Lemma next_bytes_payload (oc : bool) (buf val post : list Z) (p : Z) :
  0 <= p -> Z.of_nat (length buf) < 2 ^ 64 ->
  drop (Z.to_nat p) buf = varint_encoding 10 (Z.of_nat (length val)) ++ val ++ post ->
  next_bytes oc (mkPbReader buf p) =
  Some (Ok val, mkPbReader buf (p + Z.of_nat (length (varint_encoding 10 (Z.of_nat (length val))))
                                  + Z.of_nat (length val))).
Proof.
  intros Hp Hb Hd.
  pose proof (varint_encoding_nonempty (Z.of_nat (length val))) as Hne.
  set (enc := varint_encoding 10 (Z.of_nat (length val))) in *.
  pose proof (drop_length_le buf (enc ++ val ++ post) p Hp ltac:(rewrite length_app; lia) Hd)
    as Hle.
  rewrite !length_app in Hle.
  unfold next_bytes, bind at 1.
  rewrite (next_varint_encoding oc buf (val ++ post) p (Z.of_nat (length val)) Hp
             ltac:(lia) Hd).
  fold enc. cbn [rpos rbuf].
  rewrite add_u_small by lia.
  destruct (Z.ltb_spec (Z.of_nat (length buf)) (p + Z.of_nat (length enc) + Z.of_nat (length val)));
    [lia|].
  unfold slice.
  destruct (Z.ltb_spec (p + Z.of_nat (length enc) + Z.of_nat (length val)) (p + Z.of_nat (length enc)));
    [lia|].
  destruct (Z.ltb_spec (Z.of_nat (length buf)) (p + Z.of_nat (length enc) + Z.of_nat (length val)));
    [lia|].
  rewrite (drop_app_skip buf enc (val ++ post) p Hp Hd).
  replace (Z.to_nat (p + Z.of_nat (length enc) + Z.of_nat (length val) - (p + Z.of_nat (length enc))))
    with (length val) by lia.
  rewrite take_app_length. reflexivity.
Qed.

Lemma next_fixed_bytes (n : Z) (buf b post : list Z) (p : Z) :
  0 <= p -> 0 < n -> Z.of_nat (length b) = n -> drop (Z.to_nat p) buf = b ++ post ->
  next_fixed n (mkPbReader buf p) = Some (Ok b, mkPbReader buf (p + n)).
Proof.
  intros Hp Hn0 Hn Hd. pose proof (drop_length_le buf (b ++ post) p Hp ltac:(rewrite length_app; lia) Hd) as Hle.
  rewrite length_app in Hle. unfold next_fixed; cbn [rpos rbuf].
  destruct (Z.ltb_spec (Z.of_nat (length buf)) (p + n)); [lia|].
  rewrite Hd. replace (Z.to_nat n) with (length b) by lia. rewrite take_app_length. reflexivity.
Qed.

Lemma write_bytes_at (pre rest val : list Z) :
  (length val < length rest)%nat ->
  write_bytes val (mkPbWriter (pre ++ rest) (Z.of_nat (length pre))) =
  Some (Ok tt, mkPbWriter (pre ++ val ++ drop (length val) rest)
                          (Z.of_nat (length pre) + Z.of_nat (length val))).
Proof.
  intros Hl. unfold write_bytes; cbn [wpos wbuf]. rewrite length_app.
  destruct (Z.ltb_spec (Z.of_nat (length pre) + Z.of_nat (length val))
                       (Z.of_nat (length pre + length rest))); [|lia].
  rewrite Nat2Z.id, take_app_length.
  replace (Z.to_nat (Z.of_nat (length pre) + Z.of_nat (length val))) with (length pre + length val)%nat
    by lia.
  rewrite <- drop_drop, drop_app_length. reflexivity.
Qed.

Lemma write_varint_ok_len (pre rest : list Z) (v : Z) :
  0 <= v < 2 ^ 64 -> (length (varint_encoding 10 v) <= length rest)%nat ->
  exists tail, (length (varint_encoding 10 v) + length tail = length rest)%nat /\
    write_varint v (mkPbWriter (pre ++ rest) (Z.of_nat (length pre))) =
    Some (Ok tt, mkPbWriter (pre ++ varint_encoding 10 v ++ tail)
                            (Z.of_nat (length pre) + Z.of_nat (length (varint_encoding 10 v)))).
Proof.
  intros Hv Hl. destruct (write_varint_ok pre rest v Hv Hl) as [tail Hw].
  exists tail. split; [|exact Hw].
  assert (Hwf : writer_wf (mkPbWriter (pre ++ rest) (Z.of_nat (length pre))))
    by (unfold writer_wf; simpl; rewrite length_app; lia).
  destruct (keeps_wf_write_varint v _ _ _ Hwf Hw) as [_ Hlen].
  cbn [wbuf] in Hlen. rewrite !length_app in Hlen. lia.
Qed.

(** The output of the field encoders, given room for it. *)
Lemma encode_varint_field_ok (oc : bool) (f v : Z) (pre rest : list Z) :
  0 <= f < 32 -> 0 <= v < 2 ^ 64 -> (1 + length (varint_encoding 10 v) <= length rest)%nat ->
  exists tail,
    encode_varint_field oc f v (mkPbWriter (pre ++ rest) (Z.of_nat (length pre))) =
    Some (Ok tt, mkPbWriter (pre ++ (8 * f :: varint_encoding 10 v) ++ tail)
                            (Z.of_nat (length pre) + 1 + Z.of_nat (length (varint_encoding 10 v)))).
Proof.
  intros Hf Hv Hl. unfold encode_varint_field, bind.
  rewrite field_key_never_invalid, field_key_value by exact Hf.
  change (wire_type_u8 Varint) with 0. rewrite Z.add_0_r.
  destruct rest as [|y rest]; [cbn [length] in Hl; lia|].
  rewrite write_u8_at.
  replace (pre ++ 8 * f :: rest) with ((pre ++ [8 * f]) ++ rest) by (rewrite <- app_assoc; reflexivity).
  replace (Z.of_nat (length pre) + 1) with (Z.of_nat (length (pre ++ [8 * f])))
    by (rewrite length_app; simpl; lia).
  destruct (write_varint_ok (pre ++ [8 * f]) rest v Hv ltac:(cbn [length] in Hl; lia)) as [tail ->].
  exists tail. rewrite <- app_assoc. reflexivity.
Qed.

Lemma encode_bytes_field_ok (oc : bool) (f : Z) (val pre rest : list Z) :
  0 <= f < 32 -> Z.of_nat (length val) < 2 ^ 64 ->
  (1 + length (varint_encoding 10 (Z.of_nat (length val))) + length val < length rest)%nat ->
  exists tail,
    encode_bytes_field oc f val (mkPbWriter (pre ++ rest) (Z.of_nat (length pre))) =
    Some (Ok tt, mkPbWriter (pre ++ ((8 * f + 2) :: varint_encoding 10 (Z.of_nat (length val)) ++ val)
                                 ++ tail)
                            (Z.of_nat (length pre) + 1 +
                             Z.of_nat (length (varint_encoding 10 (Z.of_nat (length val)))) +
                             Z.of_nat (length val))).
Proof.
  intros Hf Hv Hl. unfold encode_bytes_field, bind.
  rewrite field_key_never_invalid, field_key_value by exact Hf.
  change (wire_type_u8 Bytes) with 2.
  set (enc := varint_encoding 10 (Z.of_nat (length val))) in *.
  destruct rest as [|y rest]; [cbn [length] in Hl; lia|].
  rewrite write_u8_at.
  replace (pre ++ (8 * f + 2) :: rest) with ((pre ++ [8 * f + 2]) ++ rest)
    by (rewrite <- app_assoc; reflexivity).
  replace (Z.of_nat (length pre) + 1) with (Z.of_nat (length (pre ++ [8 * f + 2])))
    by (rewrite length_app; simpl; lia).
  destruct (write_varint_ok_len (pre ++ [8 * f + 2]) rest (Z.of_nat (length val)) ltac:(lia)
              ltac:(fold enc; cbn [length] in Hl; lia)) as (tail & Ht & ->).
  fold enc in Ht |- *.
  replace ((pre ++ [8 * f + 2]) ++ enc ++ tail) with (((pre ++ [8 * f + 2]) ++ enc) ++ tail)
    by (rewrite app_assoc; reflexivity).
  replace (Z.of_nat (length (pre ++ [8 * f + 2])) + Z.of_nat (length enc))
    with (Z.of_nat (length ((pre ++ [8 * f + 2]) ++ enc))) by (rewrite (length_app (pre ++ _)); lia).
  rewrite write_bytes_at by (cbn [length] in Hl; lia).
  exists (drop (length val) tail). f_equal. f_equal.
  - rewrite <- !app_assoc. cbn [app]. rewrite <- !app_assoc. reflexivity.
Qed.

Lemma as_bytes_field (pre fld tail : list Z) (n : Z) :
  n = Z.of_nat (length pre) + Z.of_nat (length fld) ->
  as_bytes (mkPbWriter (pre ++ fld ++ tail) n) = pre ++ fld.
Proof.
  intros ->. rewrite app_assoc.
  replace (Z.of_nat (length pre) + Z.of_nat (length fld)) with (Z.of_nat (length (pre ++ fld)))
    by (rewrite length_app; lia).
  apply as_bytes_split.
Qed.

Lemma drop_committed (pre fld : list Z) :
  drop (Z.to_nat (Z.of_nat (length pre))) (pre ++ fld) = fld.
Proof. rewrite Nat2Z.id, drop_app_length. reflexivity. Qed.

(** Reading a key and a varint, as a caller does for a varint field. *)
Definition read_varint_field (oc : bool) : M PbReader ((Z * WireType) * Z) :=
  let* k := next_key in let* x := next_varint oc in ret (k, x).

Definition read_svarint_field (oc : bool) : M PbReader ((Z * WireType) * Z) :=
  let* k := next_key in let* x := next_svarint oc in ret (k, x).

Definition read_bytes_field (oc : bool) : M PbReader ((Z * WireType) * list Z) :=
  let* k := next_key in let* x := next_bytes oc in ret (k, x).

Definition read_string_field (oc : bool) : M PbReader ((Z * WireType) * list Z) :=
  let* k := next_key in let* x := next_string oc in ret (k, x).

Definition read_embedded_field (oc : bool) : M PbReader ((Z * WireType) * PbReader) :=
  let* k := next_key in let* x := next_embedded_message oc in ret (k, x).

(** A varint field written by [encode_varint_field] (field number below
    32, room for the key and the encoding) appends [8 * f] and the varint
    of [v] to [as_bytes()]; reading from where the field starts, [next_key]
    returns [(f, Varint)] and [next_varint] returns [v], ending at the end of
    the committed bytes. *)
Theorem encode_varint_field_roundtrip (oc : bool) (w : PbWriter) (f v : Z) :
  writer_wf w -> 0 <= f < 32 -> 0 <= v < 2 ^ 64 ->
  wpos w + 1 + Z.of_nat (length (varint_encoding 10 v)) <= Z.of_nat (length (wbuf w)) ->
  exists w', encode_varint_field oc f v w = Some (Ok tt, w') /\
    as_bytes w' = as_bytes w ++ 8 * f :: varint_encoding 10 v /\
    read_varint_field oc (mkPbReader (as_bytes w') (wpos w)) =
    Some (Ok ((f, Varint), v), mkPbReader (as_bytes w') (Z.of_nat (length (as_bytes w')))).
Proof.
  intros Hwf Hf Hv Hcap.
  destruct (writer_split w Hwf) as (pre & rest & ->). cbn [wpos wbuf] in *.
  rewrite length_app in Hcap.
  destruct (encode_varint_field_ok oc f v pre rest Hf Hv ltac:(lia)) as [tail Hw].
  eexists. split; [exact Hw|].
  rewrite as_bytes_split, (as_bytes_field pre (8 * f :: varint_encoding 10 v) tail)
    by (cbn [length]; lia).
  split; [reflexivity|].
  set (buf := pre ++ 8 * f :: varint_encoding 10 v).
  assert (Hd : drop (Z.to_nat (Z.of_nat (length pre))) buf = 8 * f :: varint_encoding 10 v)
    by apply drop_committed.
  unfold read_varint_field, bind at 1.
  assert (Hk : 8 * f = 8 * f + wire_type_u8 Varint) by (simpl; lia).
  assert (Hd' := Hd). rewrite Hk in Hd' at 1.
  rewrite (next_key_field buf (varint_encoding 10 v) (Z.of_nat (length pre)) f Varint
             ltac:(lia) Hf Hd').
  unfold bind.
  rewrite (next_varint_encoding oc buf [] (Z.of_nat (length pre) + 1) v ltac:(lia) Hv)
    by (rewrite app_nil_r; apply (drop_succ buf _ _ (8 * f)); [lia|exact Hd]).
  unfold ret. do 3 f_equal. subst buf. rewrite length_app. cbn [length]. lia.
Qed.

Lemma encode_varint_field_roundtrip_witness :
  (writer_wf (PbWriter_new (repeat 0 4)) /\ 0 <= 1 < 32 /\ 0 <= 300 < 2 ^ 64 /\
   wpos (PbWriter_new (repeat 0 4)) + 1 + Z.of_nat (length (varint_encoding 10 300)) <=
   Z.of_nat (length (wbuf (PbWriter_new (repeat 0 4))))) /\
  exists w', encode_varint_field true 1 300 (PbWriter_new (repeat 0 4)) = Some (Ok tt, w') /\
    as_bytes w' = as_bytes (PbWriter_new (repeat 0 4)) ++ 8 * 1 :: varint_encoding 10 300 /\
    read_varint_field true (mkPbReader (as_bytes w') (wpos (PbWriter_new (repeat 0 4)))) =
    Some (Ok ((1, Varint), 300), mkPbReader (as_bytes w') (Z.of_nat (length (as_bytes w')))).
Proof.
  assert (H : writer_wf (PbWriter_new (repeat 0 4)) /\ 0 <= 1 < 32 /\ 0 <= 300 < 2 ^ 64 /\
   wpos (PbWriter_new (repeat 0 4)) + 1 + Z.of_nat (length (varint_encoding 10 300)) <=
   Z.of_nat (length (wbuf (PbWriter_new (repeat 0 4)))))
    by (unfold writer_wf; vm_compute; repeat split; discriminate).
  split; [exact H|].
  destruct H as (H1 & H2 & H3 & H4).
  exact (encode_varint_field_roundtrip true (PbWriter_new (repeat 0 4)) 1 300 H1 H2 H3 H4).
Defined.

(** The committed bytes after a successful [encode_varint_field], as the
    reader sees them from where the field starts. *)
Lemma varint_field_committed (oc : bool) (w : PbWriter) (f v : Z) :
  writer_wf w -> 0 <= f < 32 -> 0 <= v < 2 ^ 64 ->
  wpos w + 1 + Z.of_nat (length (varint_encoding 10 v)) <= Z.of_nat (length (wbuf w)) ->
  exists w', encode_varint_field oc f v w = Some (Ok tt, w') /\
    as_bytes w' = as_bytes w ++ 8 * f :: varint_encoding 10 v /\
    0 <= wpos w /\
    next_key (mkPbReader (as_bytes w') (wpos w)) =
      Some (Ok (f, Varint), mkPbReader (as_bytes w') (wpos w + 1)) /\
    drop (Z.to_nat (wpos w + 1)) (as_bytes w') = varint_encoding 10 v ++ [] /\
    wpos w + 1 + Z.of_nat (length (varint_encoding 10 v)) = Z.of_nat (length (as_bytes w')).
Proof.
  intros Hwf Hf Hv Hcap.
  destruct (writer_split w Hwf) as (pre & rest & ->). cbn [wpos wbuf] in *.
  rewrite length_app in Hcap.
  destruct (encode_varint_field_ok oc f v pre rest Hf Hv ltac:(lia)) as [tail Hw].
  eexists. split; [exact Hw|].
  rewrite as_bytes_split, (as_bytes_field pre (8 * f :: varint_encoding 10 v) tail)
    by (cbn [length]; lia).
  assert (Hd : drop (Z.to_nat (Z.of_nat (length pre))) (pre ++ 8 * f :: varint_encoding 10 v) =
               (8 * f + wire_type_u8 Varint) :: varint_encoding 10 v)
    by (rewrite drop_committed; cbn [wire_type_u8]; rewrite Z.add_0_r; reflexivity).
  split; [reflexivity|]. split; [lia|]. split.
  - exact (next_key_field _ _ (Z.of_nat (length pre)) f Varint ltac:(lia) Hf Hd).
  - split.
    + rewrite app_nil_r. exact (drop_succ _ _ (Z.of_nat (length pre)) _ ltac:(lia) Hd).
    + rewrite length_app. cbn [length]. lia.
Qed.

(** A signed field written by [encode_svarint_field] reads back with
    [next_svarint]: without overflow checks for every [i64]; with them for
    every [i64] but [i64::MIN], whose decoding panics. *)
Theorem encode_svarint_field_roundtrip (oc : bool) (w : PbWriter) (f v : Z) :
  writer_wf w -> 0 <= f < 32 -> -2 ^ 63 <= v < 2 ^ 63 ->
  wpos w + 1 + Z.of_nat (length (varint_encoding 10 (svarint_to_varint v))) <=
    Z.of_nat (length (wbuf w)) ->
  exists w', encode_svarint_field oc f v w = Some (Ok tt, w') /\
    as_bytes w' = as_bytes w ++ 8 * f :: varint_encoding 10 (svarint_to_varint v) /\
    read_svarint_field false (mkPbReader (as_bytes w') (wpos w)) =
      Some (Ok ((f, Varint), v), mkPbReader (as_bytes w') (Z.of_nat (length (as_bytes w')))) /\
    (v <> -2 ^ 63 ->
     read_svarint_field true (mkPbReader (as_bytes w') (wpos w)) =
      Some (Ok ((f, Varint), v), mkPbReader (as_bytes w') (Z.of_nat (length (as_bytes w'))))) /\
    (v = -2 ^ 63 -> read_svarint_field true (mkPbReader (as_bytes w') (wpos w)) = None).
Proof.
  intros Hwf Hf Hv Hcap.
  assert (Hz : 0 <= svarint_to_varint v < 2 ^ 64)
    by (unfold svarint_to_varint, wrap_u; apply Z.mod_pos_bound; lia).
  destruct (varint_field_committed oc w f (svarint_to_varint v) Hwf Hf Hz Hcap)
    as (w' & Hw & Ha & Hp & Hk & Hd & Hl).
  exists w'. split; [exact Hw|]. split; [exact Ha|].
  assert (Hread : forall oc', read_svarint_field oc' (mkPbReader (as_bytes w') (wpos w)) =
    match varint_to_svarint oc' (svarint_to_varint v) with
    | Some x => Some (Ok ((f, Varint), x), mkPbReader (as_bytes w') (Z.of_nat (length (as_bytes w'))))
    | None => None
    end).
  { intros oc'. unfold read_svarint_field, bind at 1. rewrite Hk.
    unfold next_svarint, bind.
    rewrite (next_varint_encoding oc' (as_bytes w') [] (wpos w + 1) _ ltac:(lia) Hz Hd).
    rewrite Hl. destruct (varint_to_svarint oc' _); reflexivity. }
  split; [|split].
  - rewrite Hread, zigzag_roundtrip_release by exact Hv. reflexivity.
  - intros Hne. rewrite Hread, zigzag_roundtrip_debug by lia. reflexivity.
  - intros ->. rewrite Hread. reflexivity.
Qed.

Lemma encode_svarint_field_roundtrip_witness :
  (writer_wf (PbWriter_new (repeat 0 4)) /\ 0 <= 1 < 32 /\ -2 ^ 63 <= -150 < 2 ^ 63 /\
   wpos (PbWriter_new (repeat 0 4)) + 1 +
     Z.of_nat (length (varint_encoding 10 (svarint_to_varint (-150)))) <=
   Z.of_nat (length (wbuf (PbWriter_new (repeat 0 4))))) /\
  exists w', encode_svarint_field false 1 (-150) (PbWriter_new (repeat 0 4)) = Some (Ok tt, w') /\
    as_bytes w' = as_bytes (PbWriter_new (repeat 0 4)) ++
                  8 * 1 :: varint_encoding 10 (svarint_to_varint (-150)) /\
    read_svarint_field false (mkPbReader (as_bytes w') (wpos (PbWriter_new (repeat 0 4)))) =
      Some (Ok ((1, Varint), -150), mkPbReader (as_bytes w') (Z.of_nat (length (as_bytes w')))) /\
    (-150 <> -2 ^ 63 ->
     read_svarint_field true (mkPbReader (as_bytes w') (wpos (PbWriter_new (repeat 0 4)))) =
      Some (Ok ((1, Varint), -150), mkPbReader (as_bytes w') (Z.of_nat (length (as_bytes w'))))) /\
    (-150 = -2 ^ 63 ->
     read_svarint_field true (mkPbReader (as_bytes w') (wpos (PbWriter_new (repeat 0 4)))) = None).
Proof.
  assert (H : writer_wf (PbWriter_new (repeat 0 4)) /\ 0 <= 1 < 32 /\ -2 ^ 63 <= -150 < 2 ^ 63 /\
   wpos (PbWriter_new (repeat 0 4)) + 1 +
     Z.of_nat (length (varint_encoding 10 (svarint_to_varint (-150)))) <=
   Z.of_nat (length (wbuf (PbWriter_new (repeat 0 4)))))
    by (unfold writer_wf; vm_compute; repeat split; discriminate).
  split; [exact H|].
  destruct H as (H1 & H2 & H3 & H4).
  exact (encode_svarint_field_roundtrip false (PbWriter_new (repeat 0 4)) 1 (-150) H1 H2 H3 H4).
Defined.

Lemma bytes_field_committed (oc : bool) (w : PbWriter) (f : Z) (val : list Z) :
  writer_wf w -> 0 <= f < 32 -> Z.of_nat (length val) < 2 ^ 64 ->
  wpos w + 1 + Z.of_nat (length (varint_encoding 10 (Z.of_nat (length val)))) +
    Z.of_nat (length val) < Z.of_nat (length (wbuf w)) ->
  exists w', encode_bytes_field oc f val w = Some (Ok tt, w') /\
    as_bytes w' = as_bytes w ++ (8 * f + 2) :: varint_encoding 10 (Z.of_nat (length val)) ++ val /\
    0 <= wpos w /\
    next_key (mkPbReader (as_bytes w') (wpos w)) =
      Some (Ok (f, Bytes), mkPbReader (as_bytes w') (wpos w + 1)) /\
    drop (Z.to_nat (wpos w + 1)) (as_bytes w') =
      varint_encoding 10 (Z.of_nat (length val)) ++ val ++ [] /\
    wpos w + 1 + Z.of_nat (length (varint_encoding 10 (Z.of_nat (length val)))) +
      Z.of_nat (length val) = Z.of_nat (length (as_bytes w')).
Proof.
  intros Hwf Hf Hv Hcap.
  destruct (writer_split w Hwf) as (pre & rest & ->). cbn [wpos wbuf] in *.
  rewrite length_app in Hcap.
  set (enc := varint_encoding 10 (Z.of_nat (length val))) in *.
  destruct (encode_bytes_field_ok oc f val pre rest Hf Hv ltac:(fold enc; lia)) as [tail Hw].
  fold enc in Hw.
  eexists. split; [exact Hw|].
  rewrite as_bytes_split, (as_bytes_field pre ((8 * f + 2) :: enc ++ val) tail)
    by (cbn [length]; rewrite length_app; lia).
  assert (Hd : drop (Z.to_nat (Z.of_nat (length pre))) (pre ++ (8 * f + 2) :: enc ++ val) =
               (8 * f + wire_type_u8 Bytes) :: enc ++ val)
    by (rewrite drop_committed; reflexivity).
  split; [reflexivity|]. split; [lia|]. split.
  - exact (next_key_field _ _ (Z.of_nat (length pre)) f Bytes ltac:(lia) Hf Hd).
  - split.
    + rewrite app_nil_r. exact (drop_succ _ _ (Z.of_nat (length pre)) _ ltac:(lia) Hd).
    + rewrite length_app. cbn [length]. rewrite length_app. lia.
Qed.

(** A bytes field written by [encode_bytes_field] or [encode_string_field]
    (field number below 32, room for the key, the length and the payload
    with one byte to spare, since [write_bytes] needs [pos + len <
    buf.len()]) appends the key [8 * f + 2], the length varint and the
    payload to [as_bytes()].  Reading from where the field starts,
    [next_key] returns [(f, Bytes)], then [next_bytes] returns the payload,
    [next_embedded_message] a fresh reader over it, and [next_string] the
    payload if it is valid UTF-8 and [InvalidUtf8String] otherwise; all of
    them end at the end of the committed bytes. *)
Theorem encode_bytes_field_roundtrip (oc : bool) (w : PbWriter) (f : Z) (val : list Z) :
  writer_wf w -> 0 <= f < 32 -> Z.of_nat (length (wbuf w)) < 2 ^ 64 ->
  wpos w + 1 + Z.of_nat (length (varint_encoding 10 (Z.of_nat (length val)))) +
    Z.of_nat (length val) < Z.of_nat (length (wbuf w)) ->
  exists w', encode_bytes_field oc f val w = Some (Ok tt, w') /\
    encode_string_field oc f val w = Some (Ok tt, w') /\
    as_bytes w' = as_bytes w ++ (8 * f + 2) :: varint_encoding 10 (Z.of_nat (length val)) ++ val /\
    let rd := mkPbReader (as_bytes w') (wpos w) in
    let fin := mkPbReader (as_bytes w') (Z.of_nat (length (as_bytes w'))) in
    read_bytes_field oc rd = Some (Ok ((f, Bytes), val), fin) /\
    read_embedded_field oc rd = Some (Ok ((f, Bytes), PbReader_new val), fin) /\
    read_string_field oc rd =
      (if utf8_valid val then Some (Ok ((f, Bytes), val), fin)
       else Some (Err InvalidUtf8String, fin)).
Proof.
  intros Hwf Hf Hb Hcap.
  assert (Hv : Z.of_nat (length val) < 2 ^ 64) by (unfold writer_wf in Hwf; lia).
  destruct (bytes_field_committed oc w f val Hwf Hf Hv Hcap)
    as (w' & Hw & Ha & Hp & Hk & Hd & Hl).
  exists w'. split; [exact Hw|]. split; [exact Hw|]. split; [exact Ha|].
  assert (HA : Z.of_nat (length (as_bytes w')) < 2 ^ 64).
  { rewrite <- Hl. lia. }
  assert (Hnb : next_bytes oc (mkPbReader (as_bytes w') (wpos w + 1)) =
                Some (Ok val, mkPbReader (as_bytes w') (Z.of_nat (length (as_bytes w'))))).
  { rewrite (next_bytes_payload oc (as_bytes w') val [] (wpos w + 1) ltac:(lia) HA Hd).
    rewrite <- Hl. reflexivity. }
  cbv zeta. split; [|split].
  - unfold read_bytes_field, bind at 1. rewrite Hk. unfold bind. rewrite Hnb. reflexivity.
  - unfold read_embedded_field, bind at 1. rewrite Hk.
    unfold next_embedded_message, bind. rewrite Hnb. reflexivity.
  - unfold read_string_field, bind at 1. rewrite Hk.
    unfold next_string, bind. rewrite Hnb.
    destruct (utf8_valid val); reflexivity.
Qed.

Lemma encode_bytes_field_roundtrip_witness :
  (writer_wf (PbWriter_new (repeat 0 6)) /\ 0 <= 2 < 32 /\
   Z.of_nat (length (wbuf (PbWriter_new (repeat 0 6)))) < 2 ^ 64 /\
   wpos (PbWriter_new (repeat 0 6)) + 1 + Z.of_nat (length (varint_encoding 10 (Z.of_nat (length [104; 105])))) +
     Z.of_nat (length [104; 105]) < Z.of_nat (length (wbuf (PbWriter_new (repeat 0 6))))) /\
  exists w', encode_bytes_field true 2 [104; 105] (PbWriter_new (repeat 0 6)) = Some (Ok tt, w') /\
    encode_string_field true 2 [104; 105] (PbWriter_new (repeat 0 6)) = Some (Ok tt, w') /\
    as_bytes w' = as_bytes (PbWriter_new (repeat 0 6)) ++
      (8 * 2 + 2) :: varint_encoding 10 (Z.of_nat (length [104; 105])) ++ [104; 105] /\
    let rd := mkPbReader (as_bytes w') (wpos (PbWriter_new (repeat 0 6))) in
    let fin := mkPbReader (as_bytes w') (Z.of_nat (length (as_bytes w'))) in
    read_bytes_field true rd = Some (Ok ((2, Bytes), [104; 105]), fin) /\
    read_embedded_field true rd = Some (Ok ((2, Bytes), PbReader_new [104; 105]), fin) /\
    read_string_field true rd =
      (if utf8_valid [104; 105] then Some (Ok ((2, Bytes), [104; 105]), fin)
       else Some (Err InvalidUtf8String, fin)).
Proof.
  assert (H : writer_wf (PbWriter_new (repeat 0 6)) /\ 0 <= 2 < 32 /\
   Z.of_nat (length (wbuf (PbWriter_new (repeat 0 6)))) < 2 ^ 64 /\
   wpos (PbWriter_new (repeat 0 6)) + 1 + Z.of_nat (length (varint_encoding 10 (Z.of_nat (length [104; 105])))) +
     Z.of_nat (length [104; 105]) < Z.of_nat (length (wbuf (PbWriter_new (repeat 0 6)))))
    by (unfold writer_wf; vm_compute; repeat split; discriminate).
  split; [exact H|].
  destruct H as (H1 & H2 & H3 & H4).
  exact (encode_bytes_field_roundtrip true (PbWriter_new (repeat 0 6)) 2 [104; 105] H1 H2 H3 H4).
Defined.

(** *** Skipping fields *)

(** [skip_next_field] consumes exactly one field of each wire type: the
    key, then a varint, a length-delimited payload with its length, four
    bytes or eight bytes. *)
Theorem skip_next_field_skips_one_field (oc : bool) (buf post : list Z) (p f : Z) :
  0 <= p -> 0 <= f < 32 -> Z.of_nat (length buf) < 2 ^ 64 ->
  (forall v, 0 <= v < 2 ^ 64 ->
   drop (Z.to_nat p) buf = 8 * f :: varint_encoding 10 v ++ post ->
   skip_next_field oc (mkPbReader buf p) =
   Some (Ok tt, mkPbReader buf (p + 1 + Z.of_nat (length (varint_encoding 10 v))))) /\
  (forall val, drop (Z.to_nat p) buf = (8 * f + 2) :: varint_encoding 10 (Z.of_nat (length val)) ++ val ++ post ->
   skip_next_field oc (mkPbReader buf p) =
   Some (Ok tt, mkPbReader buf (p + 1 + Z.of_nat (length (varint_encoding 10 (Z.of_nat (length val))))
                               + Z.of_nat (length val)))) /\
  (forall b, length b = 4%nat -> drop (Z.to_nat p) buf = (8 * f + 5) :: b ++ post ->
   skip_next_field oc (mkPbReader buf p) = Some (Ok tt, mkPbReader buf (p + 5))) /\
  (forall b, length b = 8%nat -> drop (Z.to_nat p) buf = (8 * f + 1) :: b ++ post ->
   skip_next_field oc (mkPbReader buf p) = Some (Ok tt, mkPbReader buf (p + 9))).
Proof.
  intros Hp Hf Hb. split; [|split; [|split]].
  - intros v Hv Hd.
    assert (Hd' : drop (Z.to_nat p) buf = (8 * f + wire_type_u8 Varint) :: varint_encoding 10 v ++ post)
      by (rewrite Hd; cbn [wire_type_u8]; rewrite Z.add_0_r; reflexivity).
    unfold skip_next_field, bind at 1. rewrite (next_key_field buf _ p f Varint Hp Hf Hd').
    cbn [snd]. unfold bind.
    rewrite (next_varint_encoding oc buf post (p + 1) v ltac:(lia) Hv (drop_succ _ _ p _ Hp Hd')).
    unfold ret. do 3 f_equal. all: lia.
  - intros val Hd.
    unfold skip_next_field, bind at 1. rewrite (next_key_field buf _ p f Bytes Hp Hf Hd).
    cbn [snd]. unfold bind.
    rewrite (next_bytes_payload oc buf val post (p + 1) ltac:(lia) Hb (drop_succ _ _ p _ Hp Hd)).
    unfold ret. do 3 f_equal. all: lia.
  - intros b Hl Hd.
    unfold skip_next_field, bind at 1. rewrite (next_key_field buf _ p f Bit32 Hp Hf Hd).
    cbn [snd]. unfold bind, next_fixed32.
    rewrite (next_fixed_bytes 4 buf b post (p + 1) ltac:(lia) ltac:(lia) ltac:(rewrite Hl; reflexivity)
               (drop_succ _ _ p _ Hp Hd)).
    unfold ret. do 3 f_equal. all: lia.
  - intros b Hl Hd.
    unfold skip_next_field, bind at 1. rewrite (next_key_field buf _ p f Bit64 Hp Hf Hd).
    cbn [snd]. unfold bind, next_fixed64.
    rewrite (next_fixed_bytes 8 buf b post (p + 1) ltac:(lia) ltac:(lia) ltac:(rewrite Hl; reflexivity)
               (drop_succ _ _ p _ Hp Hd)).
    unfold ret. do 3 f_equal. all: lia.
Qed.

Lemma skip_next_field_skips_one_field_witness :
  (0 <= 0 /\ 0 <= 1 < 32 /\ Z.of_nat (length [13; 1; 2; 3; 4; 8; 0]) < 2 ^ 64) /\
  skip_next_field true (mkPbReader [13; 1; 2; 3; 4; 8; 0] 0) =
  Some (Ok tt, mkPbReader [13; 1; 2; 3; 4; 8; 0] (0 + 5)).
Proof.
  assert (H : 0 <= 0 /\ 0 <= 1 < 32 /\ Z.of_nat (length [13; 1; 2; 3; 4; 8; 0]) < 2 ^ 64)
    by (vm_compute; repeat split; discriminate).
  split; [exact H|]. destruct H as (H1 & H2 & H3).
  exact (proj1 (proj2 (proj2
    (skip_next_field_skips_one_field true [13; 1; 2; 3; 4; 8; 0] [8; 0] 0 1 H1 H2 H3)))
    [1; 2; 3; 4] eq_refl eq_refl).
Defined.

(** *** What [next_varint] computes *)

Section VarintTotal.
Variable oc : bool.

Lemma land_127_bound (b : Z) : 0 <= Z.land b 127 < 128.
Proof. rewrite land_127. apply Z.mod_pos_bound. lia. Qed.

Lemma next_varint_loop_total (fuel : nat) :
  forall (k : nat) (result : Z) (r : PbReader),
  (k + fuel = 11)%nat -> 0 <= result < 2 ^ 64 -> result < 2 ^ (7 * Z.of_nat k) ->
  next_varint_loop oc fuel result (7 * Z.of_nat k) r <> None /\
  (forall v r', next_varint_loop oc fuel result (7 * Z.of_nat k) r = Some (Ok v, r') ->
   0 <= v < 2 ^ 64).
Proof.
  induction fuel as [|fuel IH]; intros k result r Hk Hr Hrk; cbn [next_varint_loop].
  - unfold fail. cbv beta iota; split; [discriminate|intros v r' H; discriminate].
  - unfold bind, ok_or. destruct (next_u8 r) as [[b|] r1].
    2: { cbv beta iota; split; [discriminate|intros v r' H; discriminate]. }
    unfold checked_shl, wrap_u.
    destruct (Z.ltb_spec (7 * Z.of_nat k) 64) as [Hs|Hs].
    2: { unfold fail. cbv beta iota; split; [discriminate|intros v r' H; discriminate]. }
    rewrite Z.shiftl_mul_pow2 by lia.
    destruct (group_add_bound (Z.land b 127) (7 * Z.of_nat k) result (land_127_bound b)
                ltac:(lia) ltac:(lia)) as [Hb1 Hb2].
    rewrite add_u_small by (try apply Z.mod_pos_bound; lia).
    destruct (Z.land b 128 =? 0).
    + unfold ret. split; [discriminate|]. intros v r' H; inversion H; subst. lia.
    + replace (7 * Z.of_nat k + 7) with (7 * Z.of_nat (S k)) by lia.
      apply IH; [lia|lia|].
      replace (7 * Z.of_nat (S k)) with (7 * Z.of_nat k + 7) by lia. lia.
Qed.

(** The little-endian base-128 value of the 7-bit groups of a byte list. *)
Fixpoint varint_value (l : list Z) : Z :=
  match l with
  | [] => 0
  | b :: l' => b mod 128 + 128 * varint_value l'
  end.

Lemma next_varint_loop_value (cont : list Z) :
  forall (fuel k : nat) (result t : Z) (buf post : list Z) (p : Z),
  Forall (fun b => 128 <= b < 256) cont -> (k + length cont <= 9)%nat ->
  (length cont < fuel)%nat -> 0 <= p -> 0 <= t < 128 ->
  drop (Z.to_nat p) buf = cont ++ t :: post ->
  0 <= result < 2 ^ (7 * Z.of_nat k) ->
  next_varint_loop oc fuel result (7 * Z.of_nat k) (mkPbReader buf p) =
  Some (Ok ((result + varint_value (cont ++ [t]) * 2 ^ (7 * Z.of_nat k)) mod 2 ^ 64),
        mkPbReader buf (p + Z.of_nat (length cont) + 1)).
Proof.
  induction cont as [|b cont IH]; intros fuel k result t buf post p Hc Hk Hf Hp Ht Hd Hr.
  - destruct fuel as [|fuel]; [simpl in Hf; lia|].
    simpl in Hd.
    rewrite (varint_step oc fuel result _ buf post p t Hp Hd) by lia.
    cbv zeta. destruct (Z.ltb_spec t 128); [|lia].
    assert (Hm : 0 <= t mod 128 < 128) by (apply Z.mod_pos_bound; lia).
    destruct (group_add_bound (t mod 128) (7 * Z.of_nat k) result Hm ltac:(lia) Hr) as [Hb _].
    cbn [app varint_value]. rewrite Z.mul_0_r, Z.add_0_r.
    rewrite <- (Z.mod_small (result + _) (2 ^ 64)) by exact Hb.
    rewrite Z.add_mod_idemp_r by lia. simpl. rewrite Z.add_0_r. reflexivity.
  - inversion Hc as [|? ? Hb Hc']; subst.
    destruct fuel as [|fuel]; [simpl in Hf; lia|].
    simpl in Hk, Hf, Hd.
    rewrite (varint_step oc fuel result _ buf (cont ++ t :: post) p b Hp Hd) by lia.
    cbv zeta. destruct (Z.ltb_spec b 128); [lia|].
    assert (Hm : 0 <= b mod 128 < 128) by (apply Z.mod_pos_bound; lia).
    destruct (group_add_bound (b mod 128) (7 * Z.of_nat k) result Hm ltac:(lia) Hr) as [Hb1 Hb2].
    replace (7 * Z.of_nat k + 7) with (7 * Z.of_nat (S k)) by lia.
    rewrite (IH fuel (S k) _ t buf post (p + 1) Hc' ltac:(lia) ltac:(lia) ltac:(lia) Ht
               (drop_succ buf _ p b Hp Hd)) by (replace (7 * Z.of_nat (S k)) with (7 * Z.of_nat k + 7) by lia; lia).
    assert (H7 : 2 ^ (7 * Z.of_nat (S k)) = 128 * 2 ^ (7 * Z.of_nat k)).
    { replace (7 * Z.of_nat (S k)) with (7 + 7 * Z.of_nat k) by lia.
      rewrite Z.pow_add_r by lia. reflexivity. }
    f_equal. f_equal.
    + f_equal. rewrite H7.
      rewrite <- Z.add_assoc, (Z.add_comm result), <- Z.add_assoc, Z.add_mod_idemp_l by lia.
      f_equal. cbn [app varint_value]. ring.
    + f_equal. simpl length. lia.
Qed.
End VarintTotal.

(** [next_varint] never panics, in either build profile and on any
    buffer, and what it returns is a [u64]: the additions [result += tmp]
    cannot overflow, since the shifted group lands above the bits read so
    far and [checked_shl] drops what does not fit in 64 bits. *)
Theorem next_varint_never_panics (oc : bool) (r : PbReader) :
  next_varint oc r <> None /\
  (forall v r', next_varint oc r = Some (Ok v, r') -> 0 <= v < 2 ^ 64).
Proof.
  unfold next_varint. change 0 with (7 * Z.of_nat 0) at 2.
  apply next_varint_loop_total; simpl; lia.
Qed.

(** The value [next_varint] decodes from up to nine continuation bytes
    and a terminator is the little-endian base-128 value of their 7-bit
    groups, taken modulo [2^64]: padded (non-minimal) encodings are
    accepted, and of a tenth byte only the lowest bit counts, the others
    being dropped without error. *)
Theorem next_varint_value (oc : bool) (buf cont post : list Z) (p t : Z) :
  0 <= p -> Forall (fun b => 128 <= b < 256) cont -> (length cont <= 9)%nat -> 0 <= t < 128 ->
  drop (Z.to_nat p) buf = cont ++ t :: post ->
  next_varint oc (mkPbReader buf p) =
  Some (Ok (varint_value (cont ++ [t]) mod 2 ^ 64),
        mkPbReader buf (p + Z.of_nat (length cont) + 1)).
Proof.
  intros Hp Hc Hl Ht Hd. unfold next_varint.
  change (next_varint_loop oc 11 0 0 (mkPbReader buf p)) with
    (next_varint_loop oc 11 0 (7 * Z.of_nat 0) (mkPbReader buf p)).
  rewrite (next_varint_loop_value oc cont 11 0 0 t buf post p Hc ltac:(lia) ltac:(lia) Hp Ht Hd)
    by (simpl; lia).
  change (2 ^ (7 * Z.of_nat 0)) with 1. rewrite Z.mul_1_r, Z.add_0_l. reflexivity.
Qed.

Lemma next_varint_value_witness :
  (0 <= 0 /\ Forall (fun b => 128 <= b < 256) (repeat 255 9) /\
   (length (repeat 255 9) <= 9)%nat /\ 0 <= 127 < 128 /\
   drop (Z.to_nat 0) (repeat 255 9 ++ [127]) = repeat 255 9 ++ 127 :: []) /\
  next_varint false (mkPbReader (repeat 255 9 ++ [127]) 0) =
  Some (Ok (varint_value (repeat 255 9 ++ [127]) mod 2 ^ 64),
        mkPbReader (repeat 255 9 ++ [127]) (0 + Z.of_nat (length (repeat 255 9)) + 1)) /\
  varint_value (repeat 255 9 ++ [127]) mod 2 ^ 64 = 2 ^ 64 - 1.
Proof.
  assert (H : 0 <= 0 /\ Forall (fun b => 128 <= b < 256) (repeat 255 9) /\
   (length (repeat 255 9) <= 9)%nat /\ 0 <= 127 < 128 /\
   drop (Z.to_nat 0) (repeat 255 9 ++ [127]) = repeat 255 9 ++ 127 :: [])
    by (repeat split; try lia; try reflexivity; repeat constructor; lia).
  split; [exact H|]. destruct H as (H1 & H2 & H3 & H4 & H5). split.
  - exact (next_varint_value false (repeat 255 9 ++ [127]) (repeat 255 9) [] 0 127 H1 H2 H3 H4 H5).
  - reflexivity.
Defined.

(** *** When [next_bytes] succeeds, fails or panics *)

(** Once [next_varint] has read the declared length [len], [next_bytes]
    returns the next [len] bytes if they are in the buffer, fails with
    [UnexpectedEof] (after the length varint) if the end
    [pos + len] is past the buffer but below [2^64], and panics, in
    either build profile, exactly when [pos + len] reaches [2^64]. *)
Theorem next_bytes_outcomes (oc : bool) (r r1 : PbReader) (len : Z) :
  reader_wf r -> Z.of_nat (length (rbuf r)) < 2 ^ 64 ->
  next_varint oc r = Some (Ok len, r1) ->
  rbuf r1 = rbuf r /\ 0 <= len < 2 ^ 64 /\
  (rpos r1 + len <= Z.of_nat (length (rbuf r)) ->
   next_bytes oc r = Some (Ok (take (Z.to_nat len) (drop (Z.to_nat (rpos r1)) (rbuf r))),
                           mkPbReader (rbuf r) (rpos r1 + len))) /\
  (Z.of_nat (length (rbuf r)) < rpos r1 + len < 2 ^ 64 ->
   next_bytes oc r = Some (Err UnexpectedEof, r1)) /\
  (2 ^ 64 <= rpos r1 + len -> next_bytes oc r = None).
Proof.
  intros Hwf HL Hv.
  destruct (advances_next_varint oc r _ r1 Hwf Hv) as (Hb & Hp1 & Hp2).
  assert (Hlen : 0 <= len < 2 ^ 64).
  { unfold next_varint in Hv. change 0 with (7 * Z.of_nat 0) in Hv at 2.
    exact (proj2 (next_varint_loop_total oc 11 0 0 r eq_refl ltac:(lia) ltac:(simpl; lia)) len r1 Hv). }
  split; [exact Hb|]. split; [exact Hlen|].
  pose proof Hwf as Hw0. unfold reader_wf in Hw0.
  unfold next_bytes, bind. rewrite Hv. rewrite Hb.
  split; [|split].
  - intros Hin. rewrite add_u_small by lia.
    destruct (Z.ltb_spec (Z.of_nat (length (rbuf r))) (rpos r1 + len)); [lia|].
    unfold slice.
    destruct (Z.ltb_spec (rpos r1 + len) (rpos r1)); [lia|].
    destruct (Z.ltb_spec (Z.of_nat (length (rbuf r))) (rpos r1 + len)); [lia|].
    replace (rpos r1 + len - rpos r1) with len by lia. reflexivity.
  - intros Hout. rewrite add_u_small by lia.
    destruct (Z.ltb_spec (Z.of_nat (length (rbuf r))) (rpos r1 + len)); [|lia].
    destruct r1. reflexivity.
  - intros Hover. unfold add_u, wrap_u. destruct oc.
    + destruct (Z.ltb_spec (rpos r1 + len) (2 ^ 64)); [lia|reflexivity].
    + assert (Hw : (rpos r1 + len) mod 2 ^ 64 = rpos r1 + len - 2 ^ 64).
      { rewrite (Z.mod_eq (rpos r1 + len) (2 ^ 64)) by lia.
        assert (Hq : (rpos r1 + len) / 2 ^ 64 = 1).
        { symmetry. apply (Z.div_unique _ _ _ (rpos r1 + len - 2 ^ 64)); lia. }
        rewrite Hq. lia. }
      rewrite Hw.
      destruct (Z.ltb_spec (Z.of_nat (length (rbuf r))) (rpos r1 + len - 2 ^ 64)); [lia|].
      unfold slice.
      destruct (Z.ltb_spec (rpos r1 + len - 2 ^ 64) (rpos r1)); [reflexivity|lia].
Qed.

Lemma next_bytes_outcomes_witness :
  (reader_wf (PbReader_new huge_length_prefix) /\
   Z.of_nat (length (rbuf (PbReader_new huge_length_prefix))) < 2 ^ 64 /\
   next_varint false (PbReader_new huge_length_prefix) =
     Some (Ok (2 ^ 64 - 1), mkPbReader huge_length_prefix 10)) /\
  next_bytes false (PbReader_new huge_length_prefix) = None.
Proof.
  assert (H : reader_wf (PbReader_new huge_length_prefix) /\
   Z.of_nat (length (rbuf (PbReader_new huge_length_prefix))) < 2 ^ 64 /\
   next_varint false (PbReader_new huge_length_prefix) =
     Some (Ok (2 ^ 64 - 1), mkPbReader huge_length_prefix 10))
    by (unfold reader_wf; vm_compute; repeat split; try discriminate; reflexivity).
  split; [exact H|]. destruct H as (H1 & H2 & H3).
  destruct (next_bytes_outcomes false _ _ _ H1 H2 H3) as (_ & _ & _ & _ & H).
  apply H. simpl. lia.
Defined.

(** *** Zigzag decoding from the [u64] side *)

(** Every [u64] [n] decodes, without overflow checks, to the [i64] [v]
    that is [n / 2] for even [n] and [-(n / 2) - 1] for odd [n], and
    [svarint_to_varint v = n]: the zigzag maps are inverse bijections.  With
    overflow checks the decoding is the same except for [n = u64::MAX],
    where it panics. *)
Theorem zigzag_decode_u64 (n : Z) :
  0 <= n < 2 ^ 64 ->
  let v := if n mod 2 =? 0 then n / 2 else - (n / 2) - 1 in
  -2 ^ 63 <= v < 2 ^ 63 /\
  varint_to_svarint false n = Some v /\
  svarint_to_varint v = n /\
  varint_to_svarint true n = (if n =? 2 ^ 64 - 1 then None else Some v).
Proof.
  intros Hn v.
  assert (Hdm : n = 2 * (n / 2) + n mod 2) by (apply Z.div_mod; lia).
  assert (Hm : 0 <= n mod 2 < 2) by (apply Z.mod_pos_bound; lia).
  assert (Hq : 0 <= n / 2 < 2 ^ 63).
  { split; [apply Z.div_pos; lia|]. apply Z.div_lt_upper_bound; lia. }
  unfold varint_to_svarint, add_i64, neg_i64.
  rewrite land_1_parity, Z.shiftr_div_pow2 by lia. change (2 ^ 1) with 2.
  destruct (Z.eqb_spec (n mod 2) 0) as [He|Ho].
  - assert (Hvv : v = n / 2) by (unfold v; reflexivity).
    rewrite Hvv. clear Hvv v. rewrite He. change (0 =? 1) with false. cbv iota.
    assert (Hv : -2 ^ 63 <= n / 2 < 2 ^ 63) by lia.
    split; [exact Hv|]. split; [reflexivity|]. split.
    + rewrite svarint_to_varint_value by exact Hv.
      destruct (Z.leb_spec 0 (n / 2)); lia.
    + destruct (Z.eqb_spec n (2 ^ 64 - 1)); [|reflexivity].
      exfalso. rewrite e in He. discriminate.
  - assert (H1 : n mod 2 = 1) by lia.
    assert (Hvv : v = - (n / 2) - 1) by (unfold v; reflexivity).
    rewrite Hvv. clear Hvv v. rewrite H1. change (1 =? 1) with true. cbv iota.
    assert (Hv : -2 ^ 63 <= - (n / 2) - 1 < 2 ^ 63) by lia.
    split; [exact Hv|]. split; [|split].
    + destruct (Z.eq_dec (n / 2) (2 ^ 63 - 1)) as [Hmax|Hmax].
      * rewrite Hmax. reflexivity.
      * rewrite (wrap_i64_small (n / 2 + 1)) by lia.
        rewrite wrap_i64_small by lia. f_equal. lia.
    + rewrite svarint_to_varint_value by exact Hv.
      destruct (Z.leb_spec 0 (- (n / 2) - 1)); lia.
    + destruct (Z.eqb_spec n (2 ^ 64 - 1)) as [Hmax|Hmax].
      * rewrite Hmax. reflexivity.
      * destruct (Z.leb_spec (-2 ^ 63) (n / 2 + 1)); [|lia].
        destruct (Z.ltb_spec (n / 2 + 1) (2 ^ 63)); [|lia]. cbn [andb].
        destruct (Z.ltb_spec (- (n / 2 + 1)) (2 ^ 63)); [|lia].
        f_equal. lia.
Qed.

Lemma zigzag_decode_u64_witness :
  0 <= 3 < 2 ^ 64 /\
  (let v := if 3 mod 2 =? 0 then 3 / 2 else - (3 / 2) - 1 in
   -2 ^ 63 <= v < 2 ^ 63 /\
   varint_to_svarint false 3 = Some v /\
   svarint_to_varint v = 3 /\
   varint_to_svarint true 3 = (if 3 =? 2 ^ 64 - 1 then None else Some v)).
Proof. split; [lia|]. apply (zigzag_decode_u64 3). lia. Defined.

(** *** Writer outcomes *)

Lemma write_varint_room (pre rest : list Z) (v : Z) (w' : PbWriter) :
  0 <= v < 2 ^ 64 ->
  write_varint v (mkPbWriter (pre ++ rest) (Z.of_nat (length pre))) = Some (Ok tt, w') ->
  (length (varint_encoding 10 v) <= length rest)%nat /\
  exists tail, (length (varint_encoding 10 v) + length tail = length rest)%nat /\
    w' = mkPbWriter (pre ++ varint_encoding 10 v ++ tail)
                    (Z.of_nat (length pre) + Z.of_nat (length (varint_encoding 10 v))).
Proof.
  intros Hv Hw.
  pose proof (write_varint_cases pre rest v Hv) as Hc. rewrite Hw in Hc.
  destruct Hc as [tail ->].
  assert (Hwf : writer_wf (mkPbWriter (pre ++ rest) (Z.of_nat (length pre))))
    by (unfold writer_wf; simpl; rewrite length_app; lia).
  destruct (keeps_wf_write_varint v _ _ _ Hwf Hw) as [_ Hlen].
  cbn [wbuf] in Hlen. rewrite !length_app in Hlen.
  split; [lia|]. exists tail. split; [lia|reflexivity].
Qed.

Lemma write_u8_shift (pre rest : list Z) (y x : Z) :
  write_u8 x (mkPbWriter (pre ++ y :: rest) (Z.of_nat (length pre))) =
  Some (Ok tt, mkPbWriter ((pre ++ [x]) ++ rest) (Z.of_nat (length (pre ++ [x])))).
Proof.
  rewrite write_u8_at, <- app_assoc. f_equal. f_equal. f_equal.
  rewrite length_app. simpl. lia.
Qed.

(** The success conditions of the writer: [write_varint] succeeds exactly
    when the free space holds the encoding, [encode_varint_field] and
    [encode_svarint_field] when it also holds the key byte, and
    [encode_bytes_field] and [encode_string_field] only when key, length
    and payload leave at least one byte free ([write_bytes] compares with
    [<]).  A full writer ([is_eof()]) fails on all of them with
    [BufferOverflow] and is left as it was. *)
Theorem writer_success_conditions (oc : bool) (w : PbWriter) (f v : Z) (val : list Z) :
  writer_wf w -> 0 <= v < 2 ^ 64 -> Z.of_nat (length val) < 2 ^ 64 ->
  let free := Z.of_nat (length (wbuf w)) - wpos w in
  let encl := fun x => Z.of_nat (length (varint_encoding 10 x)) in
  ((exists w', write_varint v w = Some (Ok tt, w')) <-> encl v <= free) /\
  ((exists w', encode_varint_field oc f v w = Some (Ok tt, w')) <-> 1 + encl v <= free) /\
  ((exists w', encode_bytes_field oc f val w = Some (Ok tt, w')) <->
   1 + encl (Z.of_nat (length val)) + Z.of_nat (length val) < free) /\
  ((exists w', encode_string_field oc f val w = Some (Ok tt, w')) <->
   1 + encl (Z.of_nat (length val)) + Z.of_nat (length val) < free) /\
  (writer_is_eof w = true ->
   write_varint v w = Some (Err BufferOverflow, w) /\
   encode_varint_field oc f v w = Some (Err BufferOverflow, w) /\
   encode_bytes_field oc f val w = Some (Err BufferOverflow, w)).
Proof.
  intros Hwf Hv Hl free encl.
  destruct (writer_split w Hwf) as (pre & rest & ->).
  subst free encl. cbn [wpos wbuf]. rewrite length_app.
  set (key := fun wt => Z.shiftl f 3 mod 2 ^ 8 + wire_type_u8 wt).
  assert (Hvarint : (exists w', write_varint v (mkPbWriter (pre ++ rest) (Z.of_nat (length pre))) =
                               Some (Ok tt, w')) <->
                    (length (varint_encoding 10 v) <= length rest)%nat).
  { split.
    - intros [w' Hw]. exact (proj1 (write_varint_room pre rest v w' Hv Hw)).
    - intros Hr. destruct (write_varint_ok pre rest v Hv Hr) as [tail Hw]. eauto. }
  assert (Hbytes : forall g,
            (exists w', encode_bytes_field oc g val (mkPbWriter (pre ++ rest) (Z.of_nat (length pre))) =
                        Some (Ok tt, w')) <->
            (1 + length (varint_encoding 10 (Z.of_nat (length val))) + length val < length rest)%nat).
  { intros g. unfold encode_bytes_field, bind at 1. rewrite field_key_never_invalid.
    set (k := Z.shiftl g 3 mod 2 ^ 8 + wire_type_u8 Bytes).
    set (enc := varint_encoding 10 (Z.of_nat (length val))).
    unfold bind at 1.
    destruct rest as [|y rest].
    - rewrite write_u8_full by (simpl; rewrite app_nil_r; lia).
      split; [intros [w' H]; discriminate|cbn [length]; lia].
    - rewrite write_u8_shift. unfold bind.
      pose proof (write_varint_cases (pre ++ [k]) rest (Z.of_nat (length val)) ltac:(lia)) as Hc.
      destruct (write_varint (Z.of_nat (length val))
                  (mkPbWriter ((pre ++ [k]) ++ rest) (Z.of_nat (length (pre ++ [k])))))
        as [[[u|e] w1]|] eqn:E; [| |contradiction].
      + destruct u. destruct (write_varint_room (pre ++ [k]) rest (Z.of_nat (length val)) _ ltac:(lia) E) as (Hr & tail & Ht & ->).
        fold enc in Hr, Ht |- *.
        replace ((pre ++ [k]) ++ enc ++ tail) with (((pre ++ [k]) ++ enc) ++ tail)
          by (rewrite app_assoc; reflexivity).
        replace (Z.of_nat (length (pre ++ [k])) + Z.of_nat (length enc))
          with (Z.of_nat (length ((pre ++ [k]) ++ enc))) by (rewrite (length_app (pre ++ [k])); lia).
        unfold write_bytes. cbn [wpos wbuf].
        destruct (Z.ltb_spec (Z.of_nat (length ((pre ++ [k]) ++ enc)) + Z.of_nat (length val))
                             (Z.of_nat (length (((pre ++ [k]) ++ enc) ++ tail)))) as [Hw|Hw];
          rewrite !length_app in Hw; cbn [length] in Hw |- *.
        * split; [intros _; lia|intros _; eauto].
        * split; [intros [w' H]; discriminate|lia].
      + destruct Hc as [-> _]. cbn [length].
        split; [intros [w' H]; discriminate|].
        intros Hr. exfalso.
        assert (Hwf1 : writer_wf (mkPbWriter ((pre ++ [k]) ++ rest) (Z.of_nat (length (pre ++ [k])))))
          by (unfold writer_wf; simpl; rewrite !length_app; lia).
        destruct (write_varint_ok (pre ++ [k]) rest (Z.of_nat (length val)) ltac:(lia)
                    ltac:(fold enc; lia)) as [tail Hok].
        rewrite Hok in E. discriminate. }
  split; [|split; [|split; [|split]]].
  - rewrite Hvarint. lia.
  - unfold encode_varint_field, bind at 1. rewrite field_key_never_invalid.
    unfold bind at 1. destruct rest as [|y rest].
    + rewrite write_u8_full by (simpl; rewrite app_nil_r; lia).
      split; [intros [w' H]; discriminate|cbn [length]; lia].
    + rewrite write_u8_shift.
      pose proof (write_varint_cases (pre ++ [key Varint]) rest v Hv) as Hc.
      split.
      * intros [w' Hw]. destruct (write_varint_room _ _ _ _ Hv Hw) as [Hr _]. cbn [length]. lia.
      * intros Hr. cbn [length] in Hr.
        destruct (write_varint_ok (pre ++ [key Varint]) rest v Hv ltac:(lia)) as [tail Hok].
        eexists. exact Hok.
  - rewrite Hbytes. lia.
  - unfold encode_string_field. rewrite Hbytes. lia.
  - unfold writer_is_eof. cbn [wpos wbuf]. rewrite length_app.
    intros He. apply Z.eqb_eq in He.
    assert (Hr : rest = []) by (destruct rest; [reflexivity|simpl in He; lia]).
    subst rest. rewrite app_nil_r in *.
    assert (Hfull : Z.of_nat (length (wbuf (mkPbWriter pre (Z.of_nat (length pre))))) <=
                    wpos (mkPbWriter pre (Z.of_nat (length pre)))) by (simpl; lia).
    split; [|split].
    + unfold write_varint. cbn [wpos].
      destruct (Z.eqb_spec v 0); [exact (write_u8_full 0 _ Hfull)|].
      unfold bind. cbn [write_varint_loop].
      destruct (Z.ltb_spec 0 v); [|lia].
      rewrite (write_u8_full _ _ Hfull). reflexivity.
    + unfold encode_varint_field, bind at 1. rewrite field_key_never_invalid.
      unfold bind. rewrite (write_u8_full _ _ Hfull). reflexivity.
    + unfold encode_bytes_field, bind at 1. rewrite field_key_never_invalid.
      unfold bind. rewrite (write_u8_full _ _ Hfull). reflexivity.
Qed.

Lemma writer_success_conditions_witness :
  (writer_wf (PbWriter_new (repeat 0 3)) /\ 0 <= 300 < 2 ^ 64 /\
   Z.of_nat (length [104; 105]) < 2 ^ 64) /\
  (exists w', encode_varint_field true 1 300 (PbWriter_new (repeat 0 3)) = Some (Ok tt, w')) /\
  ~ (exists w', encode_bytes_field true 1 [104; 105] (PbWriter_new (repeat 0 3)) = Some (Ok tt, w')).
Proof.
  assert (H : writer_wf (PbWriter_new (repeat 0 3)) /\ 0 <= 300 < 2 ^ 64 /\
              Z.of_nat (length [104; 105]) < 2 ^ 64)
    by (unfold writer_wf; simpl; lia).
  split; [exact H|]. destruct H as (H1 & H2 & H3).
  destruct (writer_success_conditions true _ 1 300 [104; 105] H1 H2 H3)
    as (_ & [_ Hv] & [Hb _] & _).
  split.
  - apply Hv. vm_compute. discriminate.
  - intros Hex. specialize (Hb Hex). vm_compute in Hb. discriminate.
Defined.

Lemma write_varint_some (v : Z) (w : PbWriter) :
  writer_wf w -> 0 <= v < 2 ^ 64 -> write_varint v w <> None.
Proof.
  intros Hwf Hv. destruct (writer_split w Hwf) as (pre & rest & ->).
  pose proof (write_varint_cases pre rest v Hv) as Hc.
  destruct (write_varint v _) as [[[u|e] w']|]; [discriminate|discriminate|contradiction].
Qed.

Lemma write_u8_some (x : Z) (w : PbWriter) : write_u8 x w <> None.
Proof. unfold write_u8. destruct (_ <? _); discriminate. Qed.

Lemma write_bytes_some (val : list Z) (w : PbWriter) : write_bytes val w <> None.
Proof. unfold write_bytes. destruct (_ <? _); discriminate. Qed.

Lemma svarint_to_varint_u64 (s : Z) : 0 <= svarint_to_varint s < 2 ^ 64.
Proof. unfold svarint_to_varint, wrap_u. apply Z.mod_pos_bound. lia. Qed.

(** The writer never panics: on a well-formed writer, [write_varint] of a
    [u64] and every field encoder, for any field number, return [Ok] or an
    error in both build profiles; the [u8] key addition cannot overflow and
    [last_u8_mut] is only reached after a byte was written. *)
Theorem writer_never_panics (oc : bool) (w : PbWriter) (f v s : Z) (val : list Z) :
  writer_wf w -> 0 <= v < 2 ^ 64 -> Z.of_nat (length val) < 2 ^ 64 ->
  write_varint v w <> None /\
  encode_varint_field oc f v w <> None /\
  encode_svarint_field oc f s w <> None /\
  encode_bytes_field oc f val w <> None /\
  encode_string_field oc f val w <> None.
Proof.
  intros Hwf Hv Hl.
  assert (Hvf : forall x, 0 <= x < 2 ^ 64 -> encode_varint_field oc f x w <> None).
  { intros x Hx. unfold encode_varint_field, bind at 1. rewrite field_key_never_invalid.
    unfold bind. destruct (write_u8 _ w) as [[[u|e] w1]|] eqn:E.
    - destruct (keeps_wf_write_u8 _ _ _ _ Hwf E) as [Hwf1 _].
      exact (write_varint_some x w1 Hwf1 Hx).
    - discriminate.
    - exfalso. exact (write_u8_some _ _ E). }
  assert (Hbf : encode_bytes_field oc f val w <> None).
  { unfold encode_bytes_field, bind at 1. rewrite field_key_never_invalid.
    unfold bind. destruct (write_u8 _ w) as [[[u|e] w1]|] eqn:E.
    - destruct (keeps_wf_write_u8 _ _ _ _ Hwf E) as [Hwf1 _].
      destruct (write_varint _ w1) as [[[u'|e'] w2]|] eqn:E2.
      + apply write_bytes_some.
      + discriminate.
      + exfalso. exact (write_varint_some (Z.of_nat (length val)) w1 Hwf1 ltac:(lia) E2).
    - discriminate.
    - exfalso. exact (write_u8_some _ _ E). }
  split; [exact (write_varint_some v w Hwf Hv)|].
  split; [exact (Hvf v Hv)|].
  split; [exact (Hvf _ (svarint_to_varint_u64 s))|].
  split; [exact Hbf|exact Hbf].
Qed.

Lemma writer_never_panics_witness :
  (writer_wf (PbWriter_new [0]) /\ 0 <= 2 ^ 64 - 1 < 2 ^ 64 /\
   Z.of_nat (length (repeat 7 5)) < 2 ^ 64) /\
  encode_varint_field true 200 (2 ^ 64 - 1) (PbWriter_new [0]) <> None.
Proof.
  assert (H : writer_wf (PbWriter_new [0]) /\ 0 <= 2 ^ 64 - 1 < 2 ^ 64 /\
              Z.of_nat (length (repeat 7 5)) < 2 ^ 64)
    by (unfold writer_wf; simpl; lia).
  split; [exact H|]. destruct H as (H1 & H2 & H3).
  exact (proj1 (proj2 (writer_never_panics true _ 200 _ 0 _ H1 H2 H3))).
Defined.

(** *** End of input *)

Lemma next_key_step (r : PbReader) :
  next_key r =
  if has_next r then Some (decode_key (cur_byte r), mkPbReader (rbuf r) (rpos r + 1))
  else Some (Err Eof, r).
Proof.
  unfold next_key, bind, ok_or, next_u8. destruct (has_next r); reflexivity.
Qed.

Lemma no_eof_skip_value (oc : bool) (wt : WireType) (r r' : PbReader) :
  (match wt with
   | Varint => let* _v := next_varint oc in ret tt
   | Bytes => let* _v := next_bytes oc in ret tt
   | Bit32 => let* _v := next_fixed32 in ret tt
   | Bit64 => let* _v := next_fixed64 in ret tt
   end) r <> Some (Err Eof, r').
Proof.
  destruct wt; unfold next_fixed32, next_fixed64;
    apply no_eof_bind; try (intros; apply no_eof_ret).
  - apply no_eof_next_varint_loop.
  - apply no_eof_next_fixed.
  - apply no_eof_next_bytes.
  - apply no_eof_next_fixed.
Qed.

Lemma advances_skip_value (oc : bool) (wt : WireType) :
  advances (match wt with
            | Varint => let* _v := next_varint oc in ret tt
            | Bytes => let* _v := next_bytes oc in ret tt
            | Bit32 => let* _v := next_fixed32 in ret tt
            | Bit64 => let* _v := next_fixed64 in ret tt
            end).
Proof.
  destruct wt; unfold next_fixed32, next_fixed64;
    apply advances_bind; try (intros; apply advances_ret).
  - apply advances_next_varint.
  - apply advances_next_fixed. lia.
  - apply advances_next_bytes.
  - apply advances_next_fixed. lia.
Qed.

(** [PbReader::is_eof], [has_next] and [Error::is_eof] agree on where a
    message ends: on a well-formed reader, [skip_next_field] fails with an
    error whose [is_eof()] holds exactly when the reader [is_eof()], and
    then returns [Eof] without moving; otherwise every outcome of
    [skip_next_field] (a skipped field or an error) moves strictly forward
    in the same buffer, so a loop of [skip_next_field] calls until
    [is_eof()] terminates. *)
Theorem skip_next_field_end_of_input (oc : bool) (r : PbReader) :
  reader_wf r ->
  (reader_is_eof r = negb (has_next r)) /\
  ((exists e r', skip_next_field oc r = Some (Err e, r') /\ Error_is_eof e = true) <->
   reader_is_eof r = true) /\
  (reader_is_eof r = true -> skip_next_field oc r = Some (Err Eof, r)) /\
  (forall res r', reader_is_eof r = false -> skip_next_field oc r = Some (res, r') ->
   rbuf r' = rbuf r /\ rpos r < rpos r' <= Z.of_nat (length (rbuf r))).
Proof.
  intros Hwf. pose proof Hwf as Hw0. unfold reader_wf in Hw0.
  assert (Hiff : reader_is_eof r = negb (has_next r)).
  { unfold reader_is_eof, has_next.
    destruct (Z.eqb_spec (rpos r) (Z.of_nat (length (rbuf r))));
      destruct (Z.ltb_spec (rpos r) (Z.of_nat (length (rbuf r)))); reflexivity || lia. }
  assert (Hstep : skip_next_field oc r =
                  match next_key r with
                  | Some (Ok k, r1) =>
                    (match snd k with
                     | Varint => let* _v := next_varint oc in ret tt
                     | Bytes => let* _v := next_bytes oc in ret tt
                     | Bit32 => let* _v := next_fixed32 in ret tt
                     | Bit64 => let* _v := next_fixed64 in ret tt
                     end) r1
                  | Some (Err e, r1) => Some (Err e, r1)
                  | None => None
                  end) by reflexivity.
  split; [exact Hiff|].
  rewrite Hstep, next_key_step, Hiff.
  destruct (has_next r) eqn:Hn; cbn [negb].
  - split; [|split; [discriminate|]].
    + split; [|discriminate].
      intros (e & r' & H & He). exfalso.
      destruct (decode_key (cur_byte r)) as [k|e'] eqn:Hd.
      * destruct e; try discriminate He.
        exact (no_eof_skip_value oc (snd k) _ _ H).
      * inversion H; subst. destruct e; try discriminate He.
        exact (decode_key_not_eof _ Hd).
    + intros res r' _ H.
      unfold has_next in Hn. apply Z.ltb_lt in Hn.
      assert (Hwf1 : reader_wf (mkPbReader (rbuf r) (rpos r + 1)))
        by (unfold reader_wf; simpl; lia).
      destruct (decode_key (cur_byte r)) as [k|e'].
      * destruct (advances_skip_value oc (snd k) _ _ _ Hwf1 H) as (B & P1 & P2).
        cbn [rbuf rpos] in B, P1, P2. split; [exact B|lia].
      * inversion H; subst. simpl. split; [reflexivity|lia].
  - split; [split; [intros _; reflexivity|intros _; exists Eof, r; auto]|].
    split; [intros _; reflexivity|discriminate].
Qed.

Lemma skip_next_field_end_of_input_witness :
  reader_wf (mkPbReader [8; 150; 1] 3) /\ reader_wf (mkPbReader [8; 150; 1] 0) /\
  skip_next_field true (mkPbReader [8; 150; 1] 3) = Some (Err Eof, mkPbReader [8; 150; 1] 3) /\
  (forall res r', skip_next_field true (mkPbReader [8; 150; 1] 0) = Some (res, r') ->
   0 < rpos r').
Proof.
  assert (H1 : reader_wf (mkPbReader [8; 150; 1] 3)) by (unfold reader_wf; simpl; lia).
  assert (H2 : reader_wf (mkPbReader [8; 150; 1] 0)) by (unfold reader_wf; simpl; lia).
  split; [exact H1|]. split; [exact H2|]. split.
  - exact (proj1 (proj2 (proj2 (skip_next_field_end_of_input true _ H1))) eq_refl).
  - intros res r' H.
    exact (proj1 (proj2 (proj2 (proj2 (proj2 (skip_next_field_end_of_input true _ H2)))
                    res r' eq_refl H))).
Defined.

(** *** Shape of the varint encoding *)




(** *** Peeking *)

